(** * gpt_investing.algorithm: scoring of an equity universe

    A shallow embedding of [src/gpt_investing/algorithm.py], and of the
    ticker list that [src/analyze.py] builds for it.

    - Python [float] is IEEE-754 binary64: it is embedded as Rocq's primitive
      [float], whose operations are the same correctly rounded binary64
      operations.  Two things are left to the platform and are a parameter,
      the [arithmetic]: the algorithm of builtin [sum] and the C library's
      [pow], which [** 2] calls.  Given them, concrete runs evaluate to the
      very bits CPython produces.
    - [dict] keeps insertion order and has unique keys: it is an association
      list updated in place ([dict_set]).
    - Exceptions are explicit: a computation returns [Ok v], raises
      [AnalysisError] ([AnalysisErr msg]) or raises any other exception
      ([Unexpected msg], [msg] being [str(exc)]).
    - yfinance and pandas are external collaborators: what they hand back for a
      ticker is a [TickerData] value, any access of which may raise.  Within a
      run the answer depends on the ticker and the period only. *)

From Stdlib Require Import Floats ZArith Uint63 List String Bool Lia.
From Stdlib Require Import Permutation Sorted RelationClasses.
Import ListNotations.
Open Scope string_scope.
Open Scope float_scope.

Set Implicit Arguments.

(** ** Exceptions *)

Inductive result (A : Type) : Type :=
| Ok (a : A)
| AnalysisErr (msg : string)
| Unexpected (msg : string).
Arguments Ok {A} a.
Arguments AnalysisErr {A} msg.
Arguments Unexpected {A} msg.

Definition bind {A B : Type} (r : result A) (k : A -> result B) : result B :=
  match r with
  | Ok a => k a
  | AnalysisErr m => AnalysisErr m
  | Unexpected m => Unexpected m
  end.

Notation "'do' x <- r ; k" := (bind r (fun x => k))
  (at level 10, x name, r at level 100, k at level 200).

(** An access to an external object either raises (with [str(exc)]) or
    yields its value. *)
Definition ext (A : Type) : Type := (string + A)%type.

Definition get {A : Type} (e : ext A) : result A :=
  match e with
  | inl m => Unexpected m
  | inr a => Ok a
  end.

(** ** Python floats *)

Definition LOOKBACK_DAYS : nat := 21.
Definition LOOKBACK_DAYS_f : float := 21.
Definition ANNUALIZATION_FACTOR : float := PrimFloat.sqrt 252.

Definition is_nan (x : float) : bool := negb (x =? x).
Definition is_inf (x : float) : bool := (x =? infinity) || (x =? neg_infinity).

(** [math.isfinite] *)
Definition isfinite (x : float) : bool := negb (is_nan x) && negb (is_inf x).

(** [math.isclose(a, b)] with its defaults [rel_tol=1e-09], [abs_tol=0.0],
    following CPython's [math_isclose_impl]. *)
Definition rel_tol : float := 0x1.12e0be826d695p-30.
Definition abs_tol : float := 0.

Definition isclose (a b : float) : bool :=
  if a =? b then true
  else if is_inf a || is_inf b then false
  else
    let diff := abs (b - a) in
    (diff <=? abs (rel_tol * b)) || (diff <=? abs (rel_tol * a)) || (diff <=? abs_tol).

(** Truth value of a float: [bool(x)] is [x != 0.0]. *)
Definition truthy (x : float) : bool := negb (x =? 0).

(** [a or b] on optional floats: [a] when it is neither [None] nor zero. *)
Definition py_or (a b : option float) : option float :=
  match a with
  | Some x => if truthy x then Some x else b
  | None => b
  end.

(** [x / y] raises [ZeroDivisionError] on a zero divisor. *)
Definition py_div (x y : float) : result float :=
  if y =? 0 then Unexpected "float division by zero" else Ok (x / y).

(** [math.sqrt] raises [ValueError] on a negative argument. *)
Definition py_sqrt (x : float) : result float :=
  if x <? 0 then Unexpected "math domain error" else Ok (PrimFloat.sqrt x).

(** Builtin [sum] over floats starts at [0] and adds from the left.  CPython
    adds plainly up to 3.11; from 3.12 on it carries Neumaier's compensation
    term, added at the end when it is non-zero and finite.  Both are kept. *)
Inductive adding : Type := plain_adding | compensated_adding.

(** What the source leaves to the platform it runs on:
    - the algorithm of builtin [sum];
    - [pow(x, 2.0)] of the C library, which CPython calls for [x ** 2] on a
      finite [x > 0] other than 1: its value, and whether it leaves [errno]
      at [ERANGE].  A C library does not promise the correctly rounded
      square, so [x ** 2] need not be [x * x]. *)
Record arithmetic : Type := {
  adding_of : adding;
  libm_pow2 : float -> float * bool
}.

(** A [pow] that rounds the square correctly and reports overflow. *)
Definition rounded_pow2 (x : float) : float * bool := (x * x, is_inf (x * x)).

(** The arithmetics with such a [pow], one for each [sum]. *)
Definition plain_sum : arithmetic :=
  {| adding_of := plain_adding; libm_pow2 := rounded_pow2 |}.
Definition compensated_sum : arithmetic :=
  {| adding_of := compensated_adding; libm_pow2 := rounded_pow2 |}.

Definition neumaier_step (acc : float * float) (x : float) : float * float :=
  let '(f_result, c) := acc in
  let t := f_result + x in
  (t, if abs x <=? abs f_result then c + ((f_result - t) + x)
      else c + ((x - t) + f_result)).

Definition py_sum (alg : arithmetic) (l : list float) : float :=
  match adding_of alg with
  | plain_adding => fold_left PrimFloat.add l 0
  | compensated_adding =>
      let '(f_result, c) := fold_left neumaier_step l (0, 0) in
      if truthy c && isfinite c then f_result + c else f_result
  end.

(** [x ** 2] on a float, following CPython's [float_pow] with the exponent
    2.0: NaN, the infinities, the zeros and [+-1] are answered without the
    C library; otherwise [pow(|x|, 2.0)] is called, and [OverflowError] is
    raised when it leaves [ERANGE] with a non-zero value or returns an
    infinity. *)
Definition py_square (alg : arithmetic) (x : float) : result float :=
  if is_nan x then Ok x
  else if is_inf x then Ok infinity
  else if x =? 0 then Ok 0
  else
    let iv := if x <? 0 then - x else x in
    if iv =? 1 then Ok 1
    else
      let '(ix, erange) := libm_pow2 alg iv in
      let erange := if erange then negb (ix =? 0) else is_inf ix in
      if erange then Unexpected "(34, 'Numerical result out of range')"
      else Ok ix.

(** [min(...)] and [max(...)] over a non-empty iterable keep the first item
    and replace it by a later one that compares strictly below (above) it. *)
Definition py_min (x : float) (l : list float) : float :=
  fold_left (fun cur item => if item <? cur then item else cur) l x.
Definition py_max (x : float) (l : list float) : float :=
  fold_left (fun cur item => if cur <? item then item else cur) l x.

(** ** Sequences *)

(** Python's [len] on a list. *)
Abbreviation len := List.length.

(** [s[-n:]] for [n > 0]: the last [n] items, all of [s] when it is shorter. *)
Definition last_n {A : Type} (n : nat) (s : list A) : list A :=
  skipn (len s - n) s.

(** [s[-n]] for [1 <= n <= len(s)]. *)
Definition nth_from_end {A : Type} (n : nat) (s : list A) (d : A) : A :=
  nth (len s - n) s d.

(** [s[:n]] for an integer [n]: a negative [n] counts from the end. *)
Definition slice_to {A : Type} (n : Z) (s : list A) : list A :=
  if (0 <=? n)%Z then firstn (Z.to_nat n) s
  else firstn (len s - Z.to_nat (- n)) s.

(** Sequencing over a list, stopping at the first exception. *)
Fixpoint mapM {A B : Type} (f : A -> result B) (l : list A) : result (list B) :=
  match l with
  | [] => Ok []
  | a :: l' => do b <- f a; do bs <- mapM f l'; Ok (b :: bs)
  end.

(** ** Dictionaries *)

Definition dict (V : Type) : Type := list (string * V).

Fixpoint dict_get {V : Type} (d : dict V) (k : string) : option V :=
  match d with
  | [] => None
  | (k', v) :: d' => if String.eqb k k' then Some v else dict_get d' k
  end.

Definition dict_mem {V : Type} (d : dict V) (k : string) : bool :=
  match dict_get d k with Some _ => true | None => false end.

(** [d[k] = v]: a present key keeps its position, a new one goes last. *)
Fixpoint dict_set {V : Type} (d : dict V) (k : string) (v : V) : dict V :=
  match d with
  | [] => [(k, v)]
  | (k', v') :: d' =>
      if String.eqb k k' then (k', v) :: d' else (k', v') :: dict_set d' k v
  end.

(** [d[k]] raises [KeyError] on a missing key. *)
Definition dict_item {V : Type} (d : dict V) (k : string) : result V :=
  match dict_get d k with
  | Some v => Ok v
  | None => Unexpected k
  end.

Definition keys {V : Type} (d : dict V) : list string := map fst d.
Definition values {V : Type} (d : dict V) : list V := map snd d.

(** ** Data model *)

Record StockAnalysis : Type := {
  ticker : string;
  momentum_21d : option float;
  volatility_21d : option float;
  pe_ratio : option float;
  pb_ratio : option float;
  free_cash_flow_yield : option float;
  market_cap : option float
}.

Record RankedStock : Type := {
  r_ticker : string;
  composite_score : float;
  value_score : float;
  momentum_score : float;
  risk_score : float;
  analysis : StockAnalysis
}.

Record AnalysisSummary : Type := {
  ranked : list RankedStock;
  failures : dict string
}.

(** ** Metric computation *)

Definition _compute_momentum (close_prices : list float) : result float :=
  if (len close_prices <=? LOOKBACK_DAYS)%nat then
    AnalysisErr "Not enough price history to compute momentum"
  else
    do q <- py_div (nth_from_end 1 close_prices 0)
                   (nth_from_end (LOOKBACK_DAYS + 1) close_prices 0);
    Ok (q - 1).

Definition _compute_volatility (alg : arithmetic) (returns : list float) : result float :=
  if (len returns <? LOOKBACK_DAYS)%nat then
    AnalysisErr "Not enough return history to compute volatility"
  else
    let mean := py_sum alg (last_n LOOKBACK_DAYS returns) / LOOKBACK_DAYS_f in
    do squares <- mapM (fun r => py_square alg (r - mean))
                       (last_n LOOKBACK_DAYS returns);
    let variance := py_sum alg squares / LOOKBACK_DAYS_f in
    do root <- py_sqrt variance;
    Ok (root * ANNUALIZATION_FACTOR).

(** ** Normalization *)

Definition usable (value : option float) : bool :=
  match value with
  | Some v => isfinite v
  | None => false
  end.

(** The dict comprehension building [valid]. *)
Fixpoint valid_of (metric : dict (option float)) : dict float :=
  match metric with
  | [] => []
  | (t, Some v) :: m' => if isfinite v then (t, v) :: valid_of m' else valid_of m'
  | (_, None) :: m' => valid_of m'
  end.

Definition opt_value (value : option float) : float :=
  match value with Some v => v | None => nan end.

Definition _normalize (metric : dict (option float)) (higher_is_better : bool)
  : dict float :=
  let valid := valid_of metric in
  match values valid with
  | [] => map (fun '(t, _) => (t, 0)) metric
  | v0 :: vs =>
      let min_value := py_min v0 vs in
      let max_value := py_max v0 vs in
      if isclose min_value max_value then
        let base_score := 1 in
        map (fun '(t, _) => (t, if dict_mem valid t then base_score else 0)) metric
      else
        let scale := max_value - min_value in
        map (fun '(t, value) =>
               if negb (dict_mem valid t) then (t, 0)
               else
                 let score := (opt_value value - min_value) / scale in
                 (t, if negb higher_is_better then 1 - score else score))
            metric
  end.

(** ** Metric extraction *)

(** [ticker_data.history(period=period, interval="1d")]: the closing prices
    [history["Close"].tolist()] and what pandas computes from them as
    [history["Close"].pct_change().dropna().tolist()]. *)
Record History : Type := {
  Close : list float;
  Close_pct_change : list float
}.

(** The keys of [ticker_data.fast_info] that the extractor reads. *)
Record FastInfo : Type := {
  fi_pe_ratio : option float;
  fi_trailing_pe : option float;
  fi_pb_ratio : option float;
  fi_price_to_book : option float;
  fi_market_cap : option float
}.

(** What [yf.Ticker(ticker)] answers.  [cashflow] is [None] or a frame, seen
    as the mapping from its row labels to their first column. *)
Record TickerData : Type := {
  history : ext History;
  fast_info : ext FastInfo;
  cashflow : ext (option (dict float))
}.

Definition free_cash_flow_of (cash_flow : option (dict float)) : option float :=
  match cash_flow with
  | None => None
  | Some [] => None
  | Some rows =>
      match dict_get rows "Free Cash Flow" with
      | Some v => Some v
      | None => dict_get rows "FreeCashFlow"
      end
  end.

Definition fcf_yield_of (free_cash_flow market_cap : option float) : option float :=
  match free_cash_flow, market_cap with
  | Some fcf, Some mc => if truthy mc then Some (fcf / mc) else None
  | _, _ => None
  end.

Definition _fetch_analysis (alg : arithmetic) (yf : string -> string -> TickerData)
    (ticker : string) (period : string) : result StockAnalysis :=
  let ticker_data := yf ticker period in
  do history <- get (history ticker_data);
  match Close history with
  | [] => AnalysisErr "No price history available"
  | _ :: _ =>
      let close := Close history in
      do momentum <- _compute_momentum close;
      let returns := Close_pct_change history in
      do volatility <- _compute_volatility alg returns;
      do info <- get (fast_info ticker_data);
      let pe_ratio := py_or (fi_pe_ratio info) (fi_trailing_pe info) in
      let pb_ratio := py_or (fi_pb_ratio info) (fi_price_to_book info) in
      let market_cap := fi_market_cap info in
      do cash_flow <- get (cashflow ticker_data);
      let free_cash_flow := free_cash_flow_of cash_flow in
      let free_cash_flow_yield := fcf_yield_of free_cash_flow market_cap in
      Ok {| ticker := ticker;
            momentum_21d := Some momentum;
            volatility_21d := Some volatility;
            pe_ratio := pe_ratio;
            pb_ratio := pb_ratio;
            free_cash_flow_yield := free_cash_flow_yield;
            market_cap := market_cap |}
  end.

(** ** Universe scoring *)

(** The first loop of [analyze_universe].  A ticker that the input names again
    is fetched again and its entry overwritten; the loop never removes a key
    from either dict.  As [yf] is a function, the second fetch answers like
    the first: a source that changes its answer between the two is outside
    this model. *)
Fixpoint fetch_loop (alg : arithmetic) (yf : string -> string -> TickerData) (period : string)
    (tickers : list string) (analyses : dict StockAnalysis) (failures : dict string)
  : result (dict StockAnalysis * dict string) :=
  match tickers with
  | [] => Ok (analyses, failures)
  | ticker :: rest =>
      match _fetch_analysis alg yf ticker period with
      | Ok a => fetch_loop alg yf period rest (dict_set analyses ticker a) failures
      | AnalysisErr exc => fetch_loop alg yf period rest analyses (dict_set failures ticker exc)
      | Unexpected exc =>
          AnalysisErr ("Failed to analyze " ++ ticker ++ ": " ++ exc)
      end
  end.

(** [", ".join(f"{ticker} ({reason})" for ticker, reason in failures.items())] *)
Definition joined (failures : dict string) : string :=
  String.concat ", " (map (fun '(t, reason) => t ++ " (" ++ reason ++ ")") failures).

(** [{ticker: analysis.field for ticker, analysis in analyses.items()}] *)
Definition column (field : StockAnalysis -> option float)
    (analyses : dict StockAnalysis) : dict (option float) :=
  map (fun '(t, a) => (t, field a)) analyses.

Definition float_of_nat (n : nat) : float := of_uint63 (Uint63.of_Z (Z.of_nat n)).

Definition is_some {A : Type} (o : option A) : bool :=
  match o with Some _ => true | None => false end.

(** The body of the second loop: the [RankedStock] of one ticker. *)
Definition score_one (alg : arithmetic) (analyses : dict StockAnalysis)
    (pe_scores pb_scores fcf_scores momentum_scores risk_scores : dict float)
    (value_weight momentum_weight risk_weight : float)
    (ticker : string) (analysis : StockAnalysis) : result RankedStock :=
  do a <- dict_item analyses ticker;
  do c1 <- (if is_some (pe_ratio a)
            then do x <- dict_item pe_scores ticker; Ok [x] else Ok []);
  do c2 <- (if is_some (pb_ratio a)
            then do x <- dict_item pb_scores ticker; Ok (c1 ++ [x])%list else Ok c1);
  do value_components <-
     (if is_some (free_cash_flow_yield a)
      then do x <- dict_item fcf_scores ticker; Ok (c2 ++ [x])%list else Ok c2);
  let value_score :=
    match value_components with
    | [] => 0
    | _ :: _ => py_sum alg value_components / float_of_nat (len value_components)
    end in
  do m <- dict_item momentum_scores ticker;
  do r <- dict_item risk_scores ticker;
  let composite := value_weight * value_score + momentum_weight * m + risk_weight * r in
  Ok {| r_ticker := ticker;
        composite_score := composite;
        value_score := value_score;
        momentum_score := m;
        risk_score := r;
        analysis := analysis |}.

(** [list.sort(key=..., reverse=True)]: a stable sort that only asks whether
    one key is strictly below another.  CPython reverses the list, sorts it
    ascending and reverses it again, which keeps equal keys in input order.
    When no key is NaN the keys are totally preordered and the result of a
    stable sort is unique, so this insertion sort returns the very list
    CPython returns.  With a NaN key the comparisons are inconsistent and
    CPython's merge strategy may order the items differently: then only
    what holds of every permutation of the items carries over. *)
Fixpoint insert_asc {A : Type} (key : A -> float) (x : A) (l : list A) : list A :=
  match l with
  | [] => [x]
  | y :: l' => if key y <? key x then y :: insert_asc key x l'
               else x :: y :: l'
  end.

Definition sort_asc {A : Type} (key : A -> float) (l : list A) : list A :=
  fold_left (fun acc x => insert_asc key x acc) (rev l) [].

Definition sort_reverse {A : Type} (key : A -> float) (l : list A) : list A :=
  rev (sort_asc key (rev l)).

(** The five metric vectors, their normalization and the second loop. *)
Definition score_loop (alg : arithmetic) (analyses : dict StockAnalysis)
    (value_weight momentum_weight risk_weight : float) : result (list RankedStock) :=
  let pe_ratios := column pe_ratio analyses in
  let pb_ratios := column pb_ratio analyses in
  let fcf_yields := column free_cash_flow_yield analyses in
  let momenta := column momentum_21d analyses in
  let volatilities := column volatility_21d analyses in
  let pe_scores := _normalize pe_ratios false in
  let pb_scores := _normalize pb_ratios false in
  let fcf_scores := _normalize fcf_yields true in
  let momentum_scores := _normalize momenta true in
  let risk_scores := _normalize volatilities false in
  mapM (fun '(t, a) =>
          score_one alg analyses pe_scores pb_scores fcf_scores
            momentum_scores risk_scores
            value_weight momentum_weight risk_weight t a)
       analyses.

Definition analyze_universe (alg : arithmetic) (yf : string -> string -> TickerData)
    (tickers : list string) (period : string)
    (value_weight momentum_weight risk_weight : float) (top_n : option Z)
  : result AnalysisSummary :=
  do fetched <- fetch_loop alg yf period tickers [] [];
  let '(analyses, failures) := fetched in
  match analyses with
  | [] =>
      AnalysisErr ("Unable to analyze any tickers. Reasons: " ++ joined failures)
  | _ :: _ =>
      do ranked <- score_loop alg analyses value_weight momentum_weight risk_weight;
      let ranked := sort_reverse composite_score ranked in
      let ranked := match top_n with
                    | Some n => slice_to n ranked
                    | None => ranked
                    end in
      Ok {| ranked := ranked; failures := failures |}
  end.

(** A call [analyze_universe(tickers, ...)]: every argument after [tickers]
    is a keyword argument, and one that the caller leaves out takes the
    default of the signature, [period="6mo"], [value_weight=0.5],
    [momentum_weight=0.3], [risk_weight=0.2], [top_n=20].  For [top_n],
    leaving it out ([None] here) differs from passing [None] ([Some None]). *)
Definition analyze_universe_call (alg : arithmetic)
    (yf : string -> string -> TickerData) (tickers : list string)
    (period : option string) (value_weight momentum_weight risk_weight : option float)
    (top_n : option (option Z)) : result AnalysisSummary :=
  analyze_universe alg yf tickers
    (match period with Some p => p | None => "6mo" end)
    (match value_weight with Some w => w | None => 0x1p-1 end)
    (match momentum_weight with Some w => w | None => 0x1.3333333333333p-2 end)
    (match risk_weight with Some w => w | None => 0x1.999999999999ap-3 end)
    (match top_n with Some cap => cap | None => Some 20%Z end).

(** ** Command line: the ticker list *)

(** [DEFAULT_UNIVERSE] of [src/analyze.py]. *)
Definition DEFAULT_UNIVERSE : list string :=
  ["AAPL"; "MSFT"; "NVDA"; "GOOGL"; "AMZN"; "META"; "TSLA"; "JPM"; "UNH";
   "JNJ"; "V"; "PG"; "MA"; "HD"; "XOM"; "CVX"; "KO"; "PEP"; "MRK"; "ABBV";
   "BAC"; "AVGO"; "ADBE"; "CSCO"; "PFE"; "LLY"; "ORCL"; "TMO"; "ACN"; "DHR";
   "COST"; "MCD"; "CRM"; "ABT"; "TXN"; "LIN"; "WFC"; "UPS"; "PM"; "INTC";
   "HON"; "MS"; "NEE"; "UNP"; "RTX"; "LOW"; "QCOM"; "NKE"; "AMD"].

(** [sorted(set(l))] on strings: the distinct items in ascending order.
    Python orders [str] by code point, which on UTF-8 encoded text is the
    byte-wise order [String.compare]. *)
Fixpoint insert_sorted (x : string) (l : list string) : list string :=
  match l with
  | [] => [x]
  | y :: l' =>
      match String.compare x y with
      | Lt => x :: y :: l'
      | Eq => y :: l'
      | Gt => y :: insert_sorted x l'
      end
  end.

Definition sorted_set (l : list string) : list string :=
  fold_right insert_sorted [] l.

(** [_parse_tickers(values, universe_file)].  [upper] is [str.upper];
    [values] is what argparse stores for [--tickers], [None] or a list;
    [universe_file] is [None] without a universe file and otherwise what
    [_load_tickers_from_file(universe_file)] does: it raises (a missing or
    unreadable file, text that is not UTF-8) or returns the file's tickers.
    Every exception, the [ValueError] included, is an [Unexpected] one. *)
Definition _parse_tickers (upper : string -> string)
    (values : option (list string)) (universe_file : option (ext (list string)))
  : result (list string) :=
  do tickers <- match universe_file with
                | Some load => get load
                | None => Ok []
                end;
  let tickers := match values with
                 | Some ((_ :: _) as symbols) => (tickers ++ map upper symbols)%list
                 | _ => tickers
                 end in
  let tickers := match tickers with
                 | [] => DEFAULT_UNIVERSE
                 | _ :: _ => tickers
                 end in
  let unique := sorted_set tickers in
  match unique with
  | [] => Unexpected "No tickers supplied for analysis"
  | _ :: _ => Ok unique
  end.

(** ** Vocabulary of the statements *)

Definition SFnotnan (x : spec_float) : Prop :=
  match x with S754_nan => False | _ => True end.

(** The two dictionaries of the first loop hold what extraction answered. *)
Definition fetch_sound (alg : arithmetic) (yf : string -> string -> TickerData)
    (period : string) (A : dict StockAnalysis) (F : dict string) : Prop :=
  (forall t a, dict_get A t = Some a -> _fetch_analysis alg yf t period = Ok a) /\
  (forall t m, dict_get F t = Some m -> _fetch_analysis alg yf t period = AnalysisErr m) /\
  NoDup (keys A) /\ NoDup (keys F).

(** Population variance of a window, in the spec's words: the mean of the
    squared deviations from the mean, dividing by the number of items, not by
    one less.  [sq] is the squaring. *)
Definition population_variance (alg : arithmetic) (sq : float -> float)
    (window : list float) : float :=
  let n := float_of_nat (len window) in
  let mean := py_sum alg window / n in
  py_sum alg (map (fun r => sq (r - mean)) window) / n.

(** The deviations of a window from its mean. *)
Definition deviations (alg : arithmetic) (window : list float) : list float :=
  let mean := py_sum alg window / float_of_nat (len window) in
  map (fun r => r - mean) window.

(** The normalized score of a ticker for one metric of the universe. *)
Definition normalized (field : StockAnalysis -> option float) (higher_is_better : bool)
    (analyses : dict StockAnalysis) (t : string) : float :=
  match dict_get (_normalize (column field analyses) higher_is_better) t with
  | Some x => x
  | None => 0
  end.

(** The normalized scores of the valuation metrics present for a ticker. *)
Definition present_scores (analyses : dict StockAnalysis) (a : StockAnalysis)
    (t : string) : list float :=
  ((if is_some (pe_ratio a) then [normalized pe_ratio false analyses t] else []) ++
   (if is_some (pb_ratio a) then [normalized pb_ratio false analyses t] else []) ++
   (if is_some (free_cash_flow_yield a)
    then [normalized free_cash_flow_yield true analyses t] else []))%list.

(** Unweighted mean, 0.0 for no item. *)
Definition mean (alg : arithmetic) (l : list float) : float :=
  match l with
  | [] => 0
  | _ :: _ => py_sum alg l / float_of_nat (len l)
  end.

(** The [RankedStock] the second loop appends for an entry of [analyses]. *)
Definition ranked_of (alg : arithmetic) (analyses : dict StockAnalysis)
    (value_weight momentum_weight risk_weight : float)
    (entry : string * StockAnalysis) : RankedStock :=
  let '(t, a) := entry in
  let v := mean alg (present_scores analyses a t) in
  let m := normalized momentum_21d true analyses t in
  let r := normalized volatility_21d false analyses t in
  {| r_ticker := t;
     composite_score := value_weight * v + momentum_weight * m + risk_weight * r;
     value_score := v;
     momentum_score := m;
     risk_score := r;
     analysis := a |}.

(** The ranking of all surviving tickers, before the cap. *)
Definition full_ranking (alg : arithmetic) (analyses : dict StockAnalysis)
    (value_weight momentum_weight risk_weight : float) : list RankedStock :=
  sort_reverse composite_score
    (map (ranked_of alg analyses value_weight momentum_weight risk_weight) analyses).

Definition capped {A : Type} (top_n : option Z) (l : list A) : list A :=
  match top_n with
  | Some n => slice_to n l
  | None => l
  end.

(** Each item's key is at least the key of the item that follows it. *)
Definition non_increasing {A : Type} (key : A -> float) (l : list A) : Prop :=
  Sorted (fun a b => (key b <=? key a) = true) l.

Definition non_decreasing {A : Type} (key : A -> float) (l : list A) : Prop :=
  Sorted (fun a b => (key a <=? key b) = true) l.

(** The analyses of the tickers that survive extraction, in dictionary order. *)
Definition surviving (alg : arithmetic) (yf : string -> string -> TickerData)
    (period : string) (tickers : list string) : dict StockAnalysis :=
  match fetch_loop alg yf period tickers [] [] with
  | Ok (analyses, _) => analyses
  | _ => []
  end.

Definition ranked_tickers (s : AnalysisSummary) : list string :=
  map r_ticker (ranked s).

Definition failed_tickers (s : AnalysisSummary) : list string :=
  keys (failures s).

(** The cap, if any, is at least the number of surviving tickers. *)
Definition cap_covers (top_n : option Z) (survivors : nat) : Prop :=
  match top_n with
  | Some n => (Z.of_nat survivors <= n)%Z
  | None => True
  end.

(** The message of a ticker's soft failure. *)
Definition reason (alg : arithmetic) (yf : string -> string -> TickerData)
    (period : string) (t : string) : string :=
  match _fetch_analysis alg yf t period with AnalysisErr m => m | _ => "" end.

(** The test of [_normalize] on the usable values of a metric: whether their
    minimum and maximum are close. *)
Definition usable_range_is_close (metric : dict (option float)) : bool :=
  match values (valid_of metric) with
  | [] => false
  | v0 :: vs => isclose (py_min v0 vs) (py_max v0 vs)
  end.

(** Having a given score. *)
Definition tied {A : Type} (key : A -> float) (c : float) (x : A) : bool :=
  key x =? c.

(** The tickers of a list in the order of their first occurrence. *)
Fixpoint first_occurrences (tickers : list string) : list string :=
  match tickers with
  | [] => []
  | t :: rest => t :: filter (fun u => negb (String.eqb u t)) (first_occurrences rest)
  end.

(** A ticker already holds, in one of the two dicts, what its extraction gives. *)
Definition settled (alg : arithmetic) (yf : string -> string -> TickerData)
    (period : string) (A : dict StockAnalysis) (F : dict string) (t : string) : Prop :=
  (exists a, dict_get A t = Some a /\ _fetch_analysis alg yf t period = Ok a) \/
  (exists m, dict_get F t = Some m /\ _fetch_analysis alg yf t period = AnalysisErr m).

(** Whether the extraction of a ticker returns, resp. raises [AnalysisError]. *)
Definition extracted (alg : arithmetic) (yf : string -> string -> TickerData)
    (period : string) (t : string) : bool :=
  match _fetch_analysis alg yf t period with Ok _ => true | _ => false end.

Definition soft_failed (alg : arithmetic) (yf : string -> string -> TickerData)
    (period : string) (t : string) : bool :=
  match _fetch_analysis alg yf t period with AnalysisErr _ => true | _ => false end.

(** Zero or finite: neither NaN nor an infinity. *)
Definition SFfin (x : spec_float) : Prop :=
  match x with S754_zero _ | S754_finite _ _ _ => True | _ => False end.

(** Strictly ascending in the order of strings. *)
Definition string_lt (a b : string) : Prop := String.compare a b = Lt.

(** The tickers named on the command line and in the universe file. *)
Definition supplied (upper : string -> string)
    (values : option (list string)) (universe_file : option (ext (list string)))
  : list string :=
  (match universe_file with Some (inr file_tickers) => file_tickers | _ => [] end ++
   match values with Some symbols => map upper symbols | None => [] end)%list.

(** ** A small market, for running the model *)

Definition quiet_info : FastInfo :=
  {| fi_pe_ratio := None; fi_trailing_pe := None; fi_pb_ratio := None;
     fi_price_to_book := None; fi_market_cap := None |}.

Definition sample_market (ticker period : string) : TickerData :=
  if String.eqb ticker "AAA" then
    {| history := inr {| Close := repeat 100 21 ++ [110];
                         Close_pct_change := repeat 0 20 ++ [0x1.999999999999ap-4] |}%list;
       fast_info := inr {| fi_pe_ratio := Some 10; fi_trailing_pe := None;
                           fi_pb_ratio := Some 2; fi_price_to_book := None;
                           fi_market_cap := Some 1000 |};
       cashflow := inr (Some [("Free Cash Flow", 50)]) |}
  else if String.eqb ticker "BBB" then
    {| history := inr {| Close := repeat 100 21 ++ [120];
                         Close_pct_change := repeat 0 21 |}%list;
       fast_info := inr {| fi_pe_ratio := None; fi_trailing_pe := Some 20;
                           fi_pb_ratio := Some 1; fi_price_to_book := None;
                           fi_market_cap := Some 2000 |};
       cashflow := inr None |}
  else if String.eqb ticker "DDD" then
    {| history := inl "connection reset"; fast_info := inr quiet_info;
       cashflow := inr None |}
  else
    {| history := inr {| Close := []; Close_pct_change := [] |};
       fast_info := inr quiet_info; cashflow := inr None |}.

(** A market whose only ticker has five closes and unreadable fundamentals. *)
Definition thin_market (ticker period : string) : TickerData :=
  {| history := inr {| Close := [10; 11; 12; 11; 10];
                       Close_pct_change := [0x1p-3; 0x1p-4; 0x1p-4; 0x1p-4] |};
     fast_info := inl "HTTP 500"; cashflow := inl "HTTP 500" |}.

(** An arithmetic whose [pow(0.0397, 2.0)] is one unit in the last place
    below the correctly rounded square, as the GNU C library 2.36 has it. *)
Definition short_pow2 (x : float) : float * bool :=
  if x =? 0x1.4538ef34d6a16p-5 then (0x1.9d299c05af975p-10, false)
  else rounded_pow2 x.

Definition short_square : arithmetic :=
  {| adding_of := plain_adding; libm_pow2 := short_pow2 |}.

(** A market in which every ticker answers like [AAA] above, and 21 tickers. *)
Definition uniform_market (ticker period : string) : TickerData :=
  sample_market "AAA" period.

Definition twenty_one_tickers : list string :=
  ["T01"; "T02"; "T03"; "T04"; "T05"; "T06"; "T07"; "T08"; "T09"; "T10"; "T11";
   "T12"; "T13"; "T14"; "T15"; "T16"; "T17"; "T18"; "T19"; "T20"; "T21"].

(** A market with two damaged histories: [HALT] closed at zero 21 sessions
    before its last close, any other ticker has no last close (NaN). *)
Definition damaged_market (ticker period : string) : TickerData :=
  if String.eqb ticker "HALT" then
    {| history := inr {| Close := 0 :: repeat 100 21;
                         Close_pct_change := infinity :: repeat 0 20 |};
       fast_info := inr quiet_info; cashflow := inr None |}
  else
    {| history := inr {| Close := (repeat 100 21 ++ [nan])%list;
                         Close_pct_change := (repeat 0 20 ++ [nan])%list |};
       fast_info := inr quiet_info; cashflow := inr None |}.

(** [str.upper] on ASCII text, for running the model. *)
Definition upper_char (c : Ascii.ascii) : Ascii.ascii :=
  let n := Ascii.nat_of_ascii c in
  if ((97 <=? n) && (n <=? 122))%nat then Ascii.ascii_of_nat (n - 32) else c.

Fixpoint upper_ascii (s : string) : string :=
  match s with
  | EmptyString => EmptyString
  | String c s' => String (upper_char c) (upper_ascii s')
  end.

(** * Properties *)

(** ** Comparison of binary64 values *)

Section FloatOrder.

Lemma SFcompare_antisym (x y : spec_float) :
  SFcompare y x = option_map CompOpp (SFcompare x y).
Proof.
  destruct x as [sx|sx| |sx mx ex], y as [sy|sy| |sy my ey]; simpl;
    try reflexivity; try (destruct sx; reflexivity); try (destruct sy; reflexivity);
    try (destruct sx, sy; reflexivity).
  destruct sx, sy; simpl; try reflexivity;
    rewrite (Z.compare_antisym ex ey); destruct (ex ?= ey)%Z; simpl;
    try reflexivity; repeat f_equal; exact (Pos.compare_antisym mx my).
Qed.

Lemma SFcompare_total (x y : spec_float) :
  SFnotnan x -> SFnotnan y -> exists c, SFcompare x y = Some c.
Proof.
  destruct x, y; simpl; intros Hx Hy; try contradiction; eauto.
Qed.

Lemma is_nan_spec (x : float) : is_nan x = false <-> SFnotnan (Prim2SF x).
Proof.
  unfold is_nan. rewrite FloatAxioms.eqb_spec. unfold SFeqb.
  destruct (Prim2SF x) as [s|s| |s m e]; simpl.
  - tauto.
  - destruct s; simpl; tauto.
  - split; [discriminate | contradiction].
  - destruct s; rewrite Z.compare_refl, Pos.compare_cont_refl; simpl; tauto.
Qed.

Lemma ltb_leb (x y : float) : (x <? y) = true -> (x <=? y) = true.
Proof.
  rewrite FloatAxioms.ltb_spec, FloatAxioms.leb_spec. unfold SFltb, SFleb.
  destruct (SFcompare _ _) as [[| |]|]; congruence.
Qed.

Lemma not_ltb_leb (x y : float) :
  is_nan x = false -> is_nan y = false -> (y <? x) = false -> (x <=? y) = true.
Proof.
  rewrite !is_nan_spec, FloatAxioms.ltb_spec, FloatAxioms.leb_spec. unfold SFltb, SFleb. intros Hx Hy.
  rewrite (SFcompare_antisym (Prim2SF x) (Prim2SF y)).
  destruct (SFcompare_total _ _ Hx Hy) as [c ->]. destruct c; simpl; congruence.
Qed.

Lemma leb_refl (x : float) : is_nan x = false -> (x <=? x) = true.
Proof.
  intros Hx. apply not_ltb_leb; trivial.
  rewrite FloatAxioms.ltb_spec. unfold SFltb. apply is_nan_spec in Hx.
  pose proof (SFcompare_antisym (Prim2SF x) (Prim2SF x)) as H.
  destruct (SFcompare _ _) as [[| |]|]; simpl in H; congruence.
Qed.

Lemma leb_not_nan (x y : float) :
  (x <=? y) = true -> is_nan x = false /\ is_nan y = false.
Proof.
  rewrite FloatAxioms.leb_spec, !is_nan_spec. unfold SFleb.
  destruct (Prim2SF x), (Prim2SF y); simpl; try discriminate; auto.
Qed.

Lemma SFleb_trans (x y z : spec_float) :
  SFleb x y = true -> SFleb y z = true -> SFleb x z = true.
Proof.
  unfold SFleb, SFcompare.
  destruct x as [sx|sx| |sx mx ex], y as [sy|sy| |sy my ey], z as [sz|sz| |sz mz ez];
    try discriminate; try reflexivity;
    repeat match goal with s : bool |- _ => destruct s end;
    try discriminate; try reflexivity;
    change (PosDef.Pos.compare_cont Eq) with Pos.compare;
    repeat match goal with
           | |- context [(?a ?= ?b)%Z] => destruct (Z.compare_spec a b)
           | |- context [(?a ?= ?b)%positive] => destruct (Pos.compare_spec a b)
           end; simpl; try discriminate; try reflexivity; intros; subst; lia.
Qed.

Lemma leb_trans (x y z : float) :
  (x <=? y) = true -> (y <=? z) = true -> (x <=? z) = true.
Proof. rewrite !FloatAxioms.leb_spec. apply SFleb_trans. Qed.

End FloatOrder.

(** ** Exceptions and sequencing *)

Lemma bind_Ok {A B : Type} (r : result A) (k : A -> result B) (b : B) :
  bind r k = Ok b -> exists a, r = Ok a /\ k a = Ok b.
Proof. destruct r; simpl; intros H; try discriminate; eauto. Qed.

Lemma mapM_Ok {A B : Type} (f : A -> result B) (l : list A) (bs : list B) :
  mapM f l = Ok bs -> Forall2 (fun a b => f a = Ok b) l bs.
Proof.
  revert bs. induction l as [|a l IH]; simpl; intros bs H.
  - injection H as <-. constructor.
  - apply bind_Ok in H as (b & Hb & H). apply bind_Ok in H as (bs' & Hbs & H).
    injection H as <-. constructor; auto.
Qed.

Lemma mapM_total {A B : Type} (f : A -> result B) (l : list A) :
  (forall a, In a l -> exists b, f a = Ok b) -> exists bs, mapM f l = Ok bs.
Proof.
  induction l as [|a l IH]; simpl; intros H.
  - eauto.
  - destruct (H a (or_introl eq_refl)) as [b ->]. simpl.
    destruct IH as [bs ->]; [intros; apply H; auto|]. simpl. eauto.
Qed.

Lemma mapM_map {A B : Type} (f : A -> result B) (g : A -> B) (l : list A) :
  (forall a, In a l -> f a = Ok (g a)) -> mapM f l = Ok (map g l).
Proof.
  induction l as [|a l IH]; simpl; intros H; trivial.
  rewrite (H a) by auto. simpl. rewrite IH by auto. reflexivity.
Qed.

(** ** Dictionaries *)

Section Dict.
Context {V : Type}.
Implicit Types (d : dict V) (k : string) (v : V).

Lemma dict_get_In d k v : dict_get d k = Some v -> In (k, v) d.
Proof.
  induction d as [|[k' v'] d IH]; simpl; [discriminate|].
  destruct (String.eqb_spec k k') as [->|Hne]; intros H.
  - injection H as ->. auto.
  - auto.
Qed.

Lemma dict_get_keys d k : In k (keys d) <-> exists v, dict_get d k = Some v.
Proof.
  induction d as [|[k' v'] d IH]; simpl.
  - split; [contradiction | intros [v H]; discriminate].
  - destruct (String.eqb_spec k k') as [->|Hne].
    + split; eauto.
    + rewrite <- IH. split; [intros [H|H]; congruence || trivial | auto].
Qed.

Lemma dict_get_NoDup d k v : NoDup (keys d) -> In (k, v) d -> dict_get d k = Some v.
Proof.
  induction d as [|[k' v'] d IH]; simpl; [contradiction|].
  intros Hnd [H|H]; inversion Hnd as [|? ? Hnotin Hnd']; subst.
  - injection H as -> ->. now rewrite String.eqb_refl.
  - destruct (String.eqb_spec k k') as [->|Hne]; auto.
    exfalso. apply Hnotin. change k' with (fst (k', v)). now apply in_map.
Qed.

Lemma dict_get_set d k v k' :
  dict_get (dict_set d k v) k' = if String.eqb k' k then Some v else dict_get d k'.
Proof.
  induction d as [|[k0 v0] d IH]; simpl.
  - reflexivity.
  - destruct (String.eqb_spec k k0) as [->|Hne]; simpl.
    + destruct (String.eqb_spec k' k0); reflexivity.
    + rewrite IH. destruct (String.eqb_spec k' k0) as [->|]; trivial.
      destruct (String.eqb_spec k0 k); congruence.
Qed.

Lemma keys_set d k v k' : In k' (keys (dict_set d k v)) <-> k' = k \/ In k' (keys d).
Proof.
  rewrite !dict_get_keys, dict_get_set.
  destruct (String.eqb_spec k' k) as [->|Hne].
  - split; eauto.
  - split; [auto | intros [?|?]; [contradiction | trivial]].
Qed.

Lemma NoDup_keys_set d k v : NoDup (keys d) -> NoDup (keys (dict_set d k v)).
Proof.
  induction d as [|[k0 v0] d IH]; simpl; intros Hnd.
  - repeat constructor. simpl. tauto.
  - inversion Hnd as [|? ? Hnotin Hnd']; subst.
    destruct (String.eqb_spec k k0) as [->|Hne]; simpl.
    + constructor; trivial.
    + constructor; auto. fold (keys (dict_set d k v)). rewrite keys_set.
      intros [?|?]; congruence || contradiction.
Qed.

Lemma dict_item_keys d k : In k (keys d) -> exists v, dict_item d k = Ok v.
Proof.
  rewrite dict_get_keys. intros [v H]. unfold dict_item. rewrite H. eauto.
Qed.

Lemma dict_item_Ok d k v : dict_item d k = Ok v -> dict_get d k = Some v.
Proof. unfold dict_item. destruct (dict_get d k); congruence. Qed.

End Dict.

(** ** Slices *)

Lemma slice_to_all {A : Type} (n : Z) (s : list A) :
  (Z.of_nat (len s) <= n)%Z -> slice_to n s = s.
Proof.
  intros H. unfold slice_to. destruct (Z.leb_spec 0 n); [|lia].
  apply firstn_all2. lia.
Qed.

Lemma slice_to_length {A : Type} (n : Z) (s : list A) :
  (0 <= n)%Z -> Z.of_nat (len (slice_to n s)) = Z.min n (Z.of_nat (len s)).
Proof.
  intros H. unfold slice_to. destruct (Z.leb_spec 0 n); [|lia].
  rewrite length_firstn. lia.
Qed.

Lemma firstn_In {A : Type} (n : nat) (l : list A) (x : A) :
  In x (firstn n l) -> In x l.
Proof.
  intros H. rewrite <- (firstn_skipn n l). apply in_or_app. now left.
Qed.

Lemma slice_to_prefix {A : Type} (n : Z) (s : list A) :
  exists k, slice_to n s = firstn k s.
Proof. unfold slice_to. destruct (0 <=? n)%Z; eauto. Qed.

(** ** The first loop: extraction per ticker *)

Ltac break_cases :=
  simpl in *;
  repeat match goal with
         | H : _ \/ _ |- _ => destruct H
         | H : _ /\ _ |- _ => destruct H
         | H : exists _, _ |- _ => destruct H
         end;
  subst; eauto 7; try congruence.

Section FetchLoop.
Variables (alg : arithmetic) (yf : string -> string -> TickerData) (period : string).

Lemma fetch_sound_nil : fetch_sound alg yf period [] [].
Proof. repeat split; simpl; try discriminate; constructor. Qed.

Lemma fetch_sound_analysis A F t a :
  fetch_sound alg yf period A F -> _fetch_analysis alg yf t period = Ok a ->
  fetch_sound alg yf period (dict_set A t a) F.
Proof.
  intros (HA & HF & NA & NF) Ht. repeat split; trivial.
  - intros t' a'. rewrite dict_get_set. destruct (String.eqb_spec t' t) as [->|]; auto.
    congruence.
  - now apply NoDup_keys_set.
Qed.

Lemma fetch_sound_failure A F t m :
  fetch_sound alg yf period A F -> _fetch_analysis alg yf t period = AnalysisErr m ->
  fetch_sound alg yf period A (dict_set F t m).
Proof.
  intros (HA & HF & NA & NF) Ht. repeat split; trivial.
  - intros t' m'. rewrite dict_get_set. destruct (String.eqb_spec t' t) as [->|]; auto.
    congruence.
  - now apply NoDup_keys_set.
Qed.

Lemma fetch_loop_Ok tickers : forall A F A' F',
  fetch_loop alg yf period tickers A F = Ok (A', F') ->
  fetch_sound alg yf period A F ->
  fetch_sound alg yf period A' F' /\
  (forall t, In t (keys A') <->
             In t (keys A) \/ (In t tickers /\ exists a, _fetch_analysis alg yf t period = Ok a)) /\
  (forall t, In t (keys F') <->
             In t (keys F) \/
             (In t tickers /\ exists m, _fetch_analysis alg yf t period = AnalysisErr m)) /\
  (forall t, In t tickers -> forall m, _fetch_analysis alg yf t period <> Unexpected m).
Proof.
  induction tickers as [|t ts IH]; simpl; intros A F A' F' H Hs.
  - injection H as <- <-. split; [trivial|]. split; [|split]; intros; tauto.
  - destruct (_fetch_analysis alg yf t period) as [a|m|m] eqn:Ht; try discriminate.
    + destruct (IH _ _ _ _ H ltac:(eapply fetch_sound_analysis; eassumption))
        as (Hs' & HA & HF & HU).
      split; [exact Hs'|]. split; [|split].
      * intros t'. rewrite HA, keys_set. split; intros Hx; break_cases.
      * intros t'. rewrite HF. split; intros Hx; break_cases.
      * intros t' [<-|Hin] m; [congruence | now apply HU].
    + destruct (IH _ _ _ _ H ltac:(eapply fetch_sound_failure; eassumption))
        as (Hs' & HA & HF & HU).
      split; [exact Hs'|]. split; [|split].
      * intros t'. rewrite HA. split; intros Hx; break_cases.
      * intros t'. rewrite HF, keys_set. split; intros Hx; break_cases.
      * intros t' [<-|Hin] m'; [congruence | now apply HU].
Qed.

Lemma fetch_loop_not_Unexpected tickers : forall A F m,
  fetch_loop alg yf period tickers A F <> Unexpected m.
Proof.
  induction tickers as [|t ts IH]; simpl; intros A F m; [discriminate|].
  destruct (_fetch_analysis alg yf t period); auto. discriminate.
Qed.

Lemma fetch_loop_AnalysisErr tickers : forall A F msg,
  fetch_loop alg yf period tickers A F = AnalysisErr msg ->
  exists pre t post exc,
    tickers = (pre ++ t :: post)%list /\
    (forall u, In u pre -> forall m, _fetch_analysis alg yf u period <> Unexpected m) /\
    _fetch_analysis alg yf t period = Unexpected exc /\
    msg = "Failed to analyze " ++ t ++ ": " ++ exc.
Proof.
  induction tickers as [|t ts IH]; simpl; intros A F msg H; [discriminate|].
  destruct (_fetch_analysis alg yf t period) as [a|m|m] eqn:Ht.
  - destruct (IH _ _ _ H) as (pre & t' & post & exc & -> & Hpre & Ht' & ->).
    exists (t :: pre), t', post, exc. repeat split; trivial.
    intros u [<-|Hu] m; [congruence | now apply Hpre].
  - destruct (IH _ _ _ H) as (pre & t' & post & exc & -> & Hpre & Ht' & ->).
    exists (t :: pre), t', post, exc. repeat split; trivial.
    intros u [<-|Hu] m'; [congruence | now apply Hpre].
  - injection H as <-. exists [], t, ts, m. repeat split; trivial. intros u [].
Qed.

End FetchLoop.

(** ** Extraction sets momentum and volatility *)

Lemma fetch_analysis_Ok alg yf t period a :
  _fetch_analysis alg yf t period = Ok a ->
  ticker a = t /\
  exists h m v,
    history (yf t period) = inr h /\
    _compute_momentum (Close h) = Ok m /\
    _compute_volatility alg (Close_pct_change h) = Ok v /\
    momentum_21d a = Some m /\ volatility_21d a = Some v.
Proof.
  unfold _fetch_analysis. intros H.
  apply bind_Ok in H as (h & Hh & H).
  destruct (history (yf t period)) as [e|h'] eqn:Hy; simpl in Hh; [discriminate|].
  injection Hh as ->.
  destruct (Close h) as [|c cs] eqn:Hc; [discriminate|].
  apply bind_Ok in H as (m & Hm & H). apply bind_Ok in H as (v & Hv & H).
  apply bind_Ok in H as (info & _ & H). apply bind_Ok in H as (cf & _ & H).
  injection H as <-. simpl. split; trivial. exists h, m, v. rewrite Hc. auto.
Qed.

(** C10: every analysis that survives extraction has [momentum_21d] and
    [volatility_21d] set, so the momentum and volatility vectors built over
    the surviving tickers hold no absent value. *)
Theorem surviving_analyses_have_momentum_and_volatility
    alg yf period tickers analyses failures :
  fetch_loop alg yf period tickers [] [] = Ok (analyses, failures) ->
  (forall t a, _fetch_analysis alg yf t period = Ok a ->
               momentum_21d a <> None /\ volatility_21d a <> None) /\
  (forall t a, In (t, a) analyses ->
               momentum_21d a <> None /\ volatility_21d a <> None) /\
  (forall t v, In (t, v) (column momentum_21d analyses) -> v <> None) /\
  (forall t v, In (t, v) (column volatility_21d analyses) -> v <> None).
Proof.
  intros H.
  assert (Hone : forall t a, _fetch_analysis alg yf t period = Ok a ->
                             momentum_21d a <> None /\ volatility_21d a <> None).
  { intros t a Ha. apply fetch_analysis_Ok in Ha as (_ & h & m & v & _ & _ & _ & -> & ->).
    split; discriminate. }
  apply fetch_loop_Ok in H as ((HA & _ & NA & _) & _); [|apply fetch_sound_nil].
  assert (Hall : forall t a, In (t, a) analyses ->
                             momentum_21d a <> None /\ volatility_21d a <> None).
  { intros t a Hin. apply (Hone t). apply HA. now apply dict_get_NoDup. }
  repeat split; try (intros; eapply Hone; eassumption); try (intros; eapply Hall; eassumption).
  - intros t v Hin. unfold column in Hin. apply in_map_iff in Hin as ([t' a] & Heq & Hin).
    injection Heq as <- <-. now apply (Hall t' a).
  - intros t v Hin. unfold column in Hin. apply in_map_iff in Hin as ([t' a] & Heq & Hin).
    injection Heq as <- <-. now apply (Hall t' a).
Qed.

Lemma surviving_analyses_witness :
  exists analyses failures,
    fetch_loop plain_sum sample_market "6mo" ["AAA"; "BBB"; "CCC"] [] []
      = Ok (analyses, failures) /\
    len analyses = 2%nat /\
    (forall t v, In (t, v) (column momentum_21d analyses) -> v <> None).
Proof.
  eexists. eexists. split; [vm_compute; reflexivity|]. split; [reflexivity|].
  refine (proj1 (proj2 (proj2
            (@surviving_analyses_have_momentum_and_volatility
               plain_sum sample_market "6mo" ["AAA"; "BBB"; "CCC"] _ _ _)))).
  vm_compute. reflexivity.
Defined.

(** ** Normalization *)

Lemma py_min_In (l : list float) : forall x, In (py_min x l) (x :: l).
Proof.
  unfold py_min. induction l as [|y l IH]; simpl; intros x; [auto|].
  destruct (y <? x); [destruct (IH y)|destruct (IH x)]; simpl in *; tauto.
Qed.

Lemma py_max_In (l : list float) : forall x, In (py_max x l) (x :: l).
Proof.
  unfold py_max. induction l as [|y l IH]; simpl; intros x; [auto|].
  destruct (x <? y); [destruct (IH y)|destruct (IH x)]; simpl in *; tauto.
Qed.

Lemma valid_of_In (metric : dict (option float)) t v :
  In (t, v) (valid_of metric) <-> In (t, Some v) metric /\ isfinite v = true.
Proof.
  induction metric as [|[t' [v'|]] m IH]; simpl.
  - tauto.
  - destruct (isfinite v') eqn:Hf; simpl; rewrite IH; split.
    + intros [H|H]; [injection H as <- <-; auto | tauto].
    + intros [[H|H] Hv]; [injection H as <- <-; auto | auto].
    + tauto.
    + intros [[H|H] Hv]; [injection H as <- <-; congruence | auto].
  - rewrite IH. split; [tauto | intros [[H|H] Hv]; [discriminate | auto]].
Qed.

Lemma valid_of_values (metric : dict (option float)) v :
  In v (values (valid_of metric)) ->
  exists t, In (t, Some v) metric /\ isfinite v = true.
Proof.
  unfold values. rewrite in_map_iff. intros ([t v'] & <- & H).
  apply valid_of_In in H. eauto.
Qed.

Lemma valid_of_keys (metric : dict (option float)) t :
  In t (keys (valid_of metric)) -> In t (keys metric).
Proof.
  unfold keys. rewrite !in_map_iff. intros ([t' v] & <- & H).
  apply valid_of_In in H as [H _]. exists (t', Some v). auto.
Qed.

Lemma valid_of_NoDup (metric : dict (option float)) :
  NoDup (keys metric) -> NoDup (keys (valid_of metric)).
Proof.
  induction metric as [|[t [v|]] m IH]; simpl; intros H; trivial;
    inversion H as [|? ? Hn Hd]; subst; auto.
  destruct (isfinite v); simpl; auto. constructor; auto.
  intros Hin. apply Hn. now apply valid_of_keys.
Qed.

Lemma valid_of_mem (metric : dict (option float)) t value :
  NoDup (keys metric) -> In (t, value) metric ->
  dict_mem (valid_of metric) t = usable value.
Proof.
  intros Hnd Hin. unfold dict_mem.
  destruct (dict_get (valid_of metric) t) as [v|] eqn:Hg.
  - apply dict_get_In, valid_of_In in Hg as [Hg Hf].
    pose proof (dict_get_NoDup _ _ _ Hnd Hin) as H1.
    pose proof (dict_get_NoDup _ _ _ Hnd Hg) as H2.
    assert (value = Some v) as -> by congruence. simpl. now rewrite Hf.
  - destruct value as [v|]; simpl; trivial.
    destruct (isfinite v) eqn:Hf; trivial.
    assert (Hv : In (t, v) (valid_of metric)) by (apply valid_of_In; auto).
    apply (dict_get_NoDup _ _ _ (valid_of_NoDup _ Hnd)) in Hv. congruence.
Qed.

Lemma normalize_keys metric hib : keys (_normalize metric hib) = keys metric.
Proof.
  unfold _normalize, keys.
  destruct (values (valid_of metric)) as [|v0 vs];
    [|destruct (isclose _ _)]; rewrite map_map; apply map_ext;
    intros [t v]; trivial.
  destruct (negb (dict_mem (valid_of metric) t)); reflexivity.
Qed.

Lemma normalize_no_usable metric hib :
  (forall t v, In (t, v) metric -> usable v = false) ->
  _normalize metric hib = map (fun '(t, _) => (t, 0)) metric.
Proof.
  intros H. unfold _normalize.
  destruct (values (valid_of metric)) as [|v0 vs] eqn:Hv; trivial.
  assert (Hin : In v0 (values (valid_of metric))) by (rewrite Hv; simpl; auto).
  apply valid_of_values in Hin as (t & Hin & Hf).
  apply H in Hin. simpl in Hin. congruence.
Qed.

Lemma normalize_all_close metric hib :
  NoDup (keys metric) ->
  (exists t v, In (t, v) metric /\ usable v = true) ->
  (forall t1 v1 t2 v2,
      In (t1, Some v1) metric -> In (t2, Some v2) metric ->
      isfinite v1 = true -> isfinite v2 = true -> isclose v1 v2 = true) ->
  _normalize metric hib = map (fun '(t, v) => (t, if usable v then 1 else 0)) metric.
Proof.
  intros Hnd (t & v & Hin & Hu) Hclose. unfold _normalize.
  destruct (values (valid_of metric)) as [|v0 vs] eqn:Hv.
  - destruct v as [v|]; [|discriminate]. simpl in Hu.
    assert (Hx : In v (values (valid_of metric))).
    { unfold values. apply in_map_iff. exists (t, v). split; trivial.
      apply valid_of_In. auto. }
    rewrite Hv in Hx. contradiction.
  - assert (Hmin : In (py_min v0 vs) (values (valid_of metric)))
      by (rewrite Hv; apply py_min_In).
    assert (Hmax : In (py_max v0 vs) (values (valid_of metric)))
      by (rewrite Hv; apply py_max_In).
    apply valid_of_values in Hmin as (t1 & H1 & F1).
    apply valid_of_values in Hmax as (t2 & H2 & F2).
    rewrite (Hclose _ _ _ _ H1 H2 F1 F2).
    apply map_ext_in. intros [t' v'] Hin'. now rewrite (@valid_of_mem metric t' v' Hnd Hin').
Qed.

(** C4: with no usable value every ticker scores 0.0; with usable values that
    are all close to one another every ticker with a usable value scores 1.0
    and every other ticker 0.0, whatever the orientation. *)
Theorem normalize_degenerate_range metric higher_is_better :
  NoDup (keys metric) ->
  ((forall t v, In (t, v) metric -> usable v = false) ->
   _normalize metric higher_is_better = map (fun '(t, _) => (t, 0)) metric) /\
  ((exists t v, In (t, v) metric /\ usable v = true) ->
   (forall t1 v1 t2 v2,
       In (t1, Some v1) metric -> In (t2, Some v2) metric ->
       isfinite v1 = true -> isfinite v2 = true -> isclose v1 v2 = true) ->
   _normalize metric higher_is_better
   = map (fun '(t, v) => (t, if usable v then 1 else 0)) metric).
Proof.
  intros Hnd. split.
  - apply normalize_no_usable.
  - now apply normalize_all_close.
Qed.

Lemma normalize_degenerate_range_witness :
  _normalize [("A", None); ("B", Some nan); ("C", Some infinity)] false
  = [("A", 0); ("B", 0); ("C", 0)] /\
  _normalize [("A", Some 5); ("B", None); ("C", Some 0x1.4000000000001p+2)] true
  = [("A", 1); ("B", 0); ("C", 1)].
Proof.
  split.
  - refine (proj1 (@normalize_degenerate_range
                     [("A", None); ("B", Some nan); ("C", Some infinity)] false _) _).
    + repeat constructor; simpl; intuition discriminate.
    + intros t v [H|[H|[H|[]]]]; injection H as <- <-; reflexivity.
  - refine (proj2 (@normalize_degenerate_range
                     [("A", Some 5); ("B", None); ("C", Some 0x1.4000000000001p+2)]
                     true _) _ _).
    + repeat constructor; simpl; intuition discriminate.
    + exists "A", (Some 5). split; [simpl; auto | reflexivity].
    + intros t1 v1 t2 v2 [H1|[H1|[H1|[]]]] [H2|[H2|[H2|[]]]] _ _;
        try discriminate; injection H1 as <- <-; injection H2 as <- <-;
        vm_compute; reflexivity.
Defined.

(** ** Momentum and volatility *)

Lemma last_n_app {A : Type} (pre window : list A) :
  last_n (len window) (pre ++ window) = window.
Proof.
  unfold last_n. rewrite length_app.
  replace (len pre + len window - len window)%nat with (len pre + 0)%nat by lia.
  rewrite skipn_app, Nat.add_0_r, skipn_all. simpl.
  now replace (len pre - len pre)%nat with 0%nat by lia.
Qed.

Lemma py_square_not_AnalysisErr alg x m : py_square alg x <> AnalysisErr m.
Proof.
  unfold py_square.
  destruct (is_nan x); [discriminate|]. destruct (is_inf x); [discriminate|].
  destruct (x =? 0); [discriminate|]. destruct (_ =? 1); [discriminate|].
  destruct (libm_pow2 alg _) as [ix erange].
  destruct (if erange then _ else _); discriminate.
Qed.

Lemma mapM_not_AnalysisErr {A B : Type} (f : A -> result B) (l : list A) :
  (forall a m, f a <> AnalysisErr m) -> forall m, mapM f l <> AnalysisErr m.
Proof.
  intros Hf. induction l as [|a l IH]; simpl; intros m; [discriminate|].
  destruct (f a) as [b|m'|m'] eqn:Ha; simpl; [|now destruct (Hf a m')|discriminate].
  destruct (mapM f l) as [bs|m'|m'] eqn:Hl; simpl; try discriminate.
  now destruct (IH m').
Qed.

Lemma mapM_Unexpected {A B : Type} (f : A -> result B) (l : list A) a exc :
  (forall a m, f a <> AnalysisErr m) ->
  In a l -> f a = Unexpected exc -> exists exc', mapM f l = Unexpected exc'.
Proof.
  intros Hf. induction l as [|x l IH]; simpl; intros Hin Ha; [contradiction|].
  destruct (f x) as [b|m|m] eqn:Hx; simpl; [|now destruct (Hf x m)|eauto].
  destruct Hin as [->|Hin]; [congruence|].
  destruct (IH Hin Ha) as [exc' ->]. simpl. eauto.
Qed.

Lemma mapM_of_map {A B C : Type} (f : B -> result C) (g : A -> B) (l : list A) :
  mapM f (map g l) = mapM (fun a => f (g a)) l.
Proof. induction l as [|a l IH]; simpl; [|rewrite IH]; reflexivity. Qed.

Lemma compute_volatility_window alg pre window :
  len window = 21%nat ->
  _compute_volatility alg (pre ++ window)
  = do squares <- mapM (py_square alg) (deviations alg window);
    do root <- py_sqrt (py_sum alg squares / LOOKBACK_DAYS_f);
    Ok (root * ANNUALIZATION_FACTOR).
Proof.
  intros Hlen. unfold _compute_volatility.
  assert (Hl : (len (pre ++ window) <? LOOKBACK_DAYS)%nat = false).
  { apply Nat.ltb_ge. rewrite length_app, Hlen. unfold LOOKBACK_DAYS. lia. }
  rewrite Hl. unfold LOOKBACK_DAYS.
  replace (last_n 21 (pre ++ window)) with window
    by (rewrite <- Hlen; symmetry; apply last_n_app).
  unfold deviations. rewrite mapM_of_map, Hlen. reflexivity.
Qed.

Ltac result_neq :=
  let H := fresh in
  intro H;
  apply (f_equal (fun r => match r with Ok x => Some (Prim2SF x) | _ => None end)) in H;
  vm_compute in H; discriminate H.

(** C5, as the code has it: with at least 22 closes the result is the binary64
    value of [last / base - 1], [base] being the close 21 sessions before the
    last, unless [base] is zero, which raises [ZeroDivisionError]; for
    [[100]*21 + [110]] that value is 0.10000000000000009; with fewer than 22
    closes the insufficient-history error is raised. *)
Theorem compute_momentum_spec :
  (forall pre base mid last,
      len mid = 20%nat ->
      _compute_momentum (pre ++ base :: mid ++ [last])
      = if base =? 0 then Unexpected "float division by zero"
        else Ok (last / base - 1)) /\
  (forall close_prices,
      (len close_prices < 22)%nat ->
      _compute_momentum close_prices
      = AnalysisErr "Not enough price history to compute momentum") /\
  _compute_momentum (repeat 100 21 ++ [110]) = Ok 0x1.99999999999a0p-4.
Proof.
  split; [|split].
  - intros pre base mid last Hmid. unfold _compute_momentum, nth_from_end.
    assert (Hlen : len (pre ++ base :: mid ++ [last]) = (len pre + 22)%nat).
    { rewrite length_app. simpl. rewrite length_app, Hmid. simpl. lia. }
    rewrite Hlen. unfold LOOKBACK_DAYS.
    replace (len pre + 22 <=? 21)%nat with false by (symmetry; apply Nat.leb_gt; lia).
    replace (len pre + 22 - (21 + 1))%nat with (len pre + 0)%nat by lia.
    replace (len pre + 22 - 1)%nat with (len pre + (1 + (len mid + 0)))%nat by lia.
    rewrite !app_nth2_plus. simpl. rewrite app_nth2_plus. simpl.
    unfold py_div. destruct (base =? 0); reflexivity.
  - intros close_prices Hlen. unfold _compute_momentum, LOOKBACK_DAYS.
    replace (len close_prices <=? 21)%nat with true; trivial.
    symmetry. apply Nat.leb_le. lia.
  - vm_compute. reflexivity.
Qed.

Lemma compute_momentum_spec_witness :
  _compute_momentum ([90; 80] ++ 100 :: repeat 100 20 ++ [125]) = Ok 0.25 /\
  _compute_momentum ([90; 80] ++ 0 :: repeat 100 20 ++ [125])
  = Unexpected "float division by zero" /\
  _compute_momentum (repeat 100 21)
  = AnalysisErr "Not enough price history to compute momentum".
Proof.
  split; [|split].
  - exact (proj1 compute_momentum_spec [90; 80] 100 (repeat 100 20) 125 eq_refl).
  - exact (proj1 compute_momentum_spec [90; 80] 0 (repeat 100 20) 125 eq_refl).
  - apply (proj1 (proj2 compute_momentum_spec)). simpl. lia.
Defined.

(** The spec's example does not yield the double 0.1. *)
Lemma momentum_example_is_not_one_tenth :
  _compute_momentum (repeat 100 21 ++ [110]) <> Ok 0x1.999999999999ap-4.
Proof. result_neq. Qed.

(** C6, as the code has it: with at least 21 returns the result is the square
    root of the population variance (dividing by 21) of the last 21 returns,
    times [sqrt(252)], all in binary64 arithmetic, the squares of the
    deviations being what [** 2] gives on the platform, which need not be the
    correctly rounded products; if one of these squares raises (it
    overflows), so does the call; 21 zero returns yield exactly 0.0 on every
    platform; with fewer than 21 returns the insufficient-return-history error
    is raised. *)
Theorem compute_volatility_spec alg :
  (forall pre window sq,
      len window = 21%nat ->
      (forall d, In d (deviations alg window) -> py_square alg d = Ok (sq d)) ->
      (population_variance alg sq window <? 0) = false ->
      _compute_volatility alg (pre ++ window)
      = Ok (PrimFloat.sqrt (population_variance alg sq window) * PrimFloat.sqrt 252)) /\
  (forall pre window d exc,
      len window = 21%nat ->
      In d (deviations alg window) -> py_square alg d = Unexpected exc ->
      exists exc', _compute_volatility alg (pre ++ window) = Unexpected exc') /\
  (forall returns,
      (len returns < 21)%nat ->
      _compute_volatility alg returns
      = AnalysisErr "Not enough return history to compute volatility") /\
  _compute_volatility alg (repeat 0 21) = Ok 0.
Proof.
  split; [|split; [|split]].
  - intros pre window sq Hlen Hsq Hneg.
    rewrite compute_volatility_window by exact Hlen.
    rewrite (mapM_map (py_square alg) sq (deviations alg window) Hsq). simpl.
    assert (E : py_sum alg (map sq (deviations alg window)) / LOOKBACK_DAYS_f
                = population_variance alg sq window).
    { unfold population_variance, deviations. now rewrite map_map, Hlen. }
    rewrite E. unfold py_sqrt. now rewrite Hneg.
  - intros pre window d exc Hlen Hin Hd.
    rewrite compute_volatility_window by exact Hlen.
    destruct (@mapM_Unexpected _ _ (py_square alg) (deviations alg window) d exc)
      as [exc' ->]; trivial.
    + intros a m. apply py_square_not_AnalysisErr.
    + simpl. eauto.
  - intros returns Hlen. unfold _compute_volatility, LOOKBACK_DAYS.
    replace (len returns <? 21)%nat with true; trivial.
    symmetry. apply Nat.ltb_lt. lia.
  - destruct alg as [[|] pow2]; vm_compute; reflexivity.
Qed.

Lemma compute_volatility_spec_witness :
  _compute_volatility plain_sum ([0x1p-3] ++ repeat 0x1p-4 20 ++ [0x1p-2])
  = Ok (PrimFloat.sqrt (population_variance plain_sum (fun d => d * d)
                          (repeat 0x1p-4 20 ++ [0x1p-2]))
        * PrimFloat.sqrt 252) /\
  _compute_volatility compensated_sum (repeat 0 20)
  = AnalysisErr "Not enough return history to compute volatility".
Proof.
  split.
  - apply (proj1 (compute_volatility_spec plain_sum) [0x1p-3]
             (repeat 0x1p-4 20 ++ [0x1p-2])%list (fun d => d * d)).
    + reflexivity.
    + intros d Hd. vm_compute in Hd.
      repeat (destruct Hd as [<-|Hd]; [vm_compute; reflexivity|]). contradiction.
    + vm_compute. reflexivity.
  - apply (proj1 (proj2 (proj2 (compute_volatility_spec compensated_sum)))).
    simpl. lia.
Defined.

(** The square of the platform shows in the result: for the returns 0.0397,
    -0.0397 and 19 zeros the volatility with the products [d * d] and the one
    with a [pow] that is one unit short on 0.0397 differ in the last place. *)
Lemma platform_square_shows :
  _compute_volatility plain_sum ([0x1.4538ef34d6a16p-5; -0x1.4538ef34d6a16p-5]
                                 ++ repeat 0 19)
  = Ok 0x1.8e5080dfc0892p-3 /\
  _compute_volatility short_square ([0x1.4538ef34d6a16p-5; -0x1.4538ef34d6a16p-5]
                                    ++ repeat 0 19)
  = Ok 0x1.8e5080dfc0891p-3.
Proof. split; vm_compute; reflexivity. Qed.

(** Twenty-one identical returns of 0.0001 do not yield 0.0, with either
    summation. *)
Lemma identical_returns_nonzero_volatility :
  _compute_volatility plain_sum (repeat 0x1.a36e2eb1c432dp-14 21) <> Ok 0 /\
  _compute_volatility compensated_sum (repeat 0x1.a36e2eb1c432dp-14 21) <> Ok 0.
Proof. split; result_neq. Qed.

(** ** The second loop: scoring *)

Lemma column_keys field analyses : keys (column field analyses) = keys analyses.
Proof.
  unfold column, keys. rewrite map_map. apply map_ext. now intros [t a].
Qed.

Lemma dict_item_normalized field hib analyses t :
  In t (keys analyses) ->
  dict_item (_normalize (column field analyses) hib) t
  = Ok (normalized field hib analyses t).
Proof.
  intros Hin. unfold normalized.
  destruct (@dict_item_keys _ (_normalize (column field analyses) hib) t) as [x Hx].
  { now rewrite normalize_keys, column_keys. }
  rewrite Hx. apply dict_item_Ok in Hx. now rewrite Hx.
Qed.

Lemma score_one_Ok alg analyses vw mw rw t a :
  NoDup (keys analyses) -> In (t, a) analyses ->
  score_one alg analyses
    (_normalize (column pe_ratio analyses) false)
    (_normalize (column pb_ratio analyses) false)
    (_normalize (column free_cash_flow_yield analyses) true)
    (_normalize (column momentum_21d analyses) true)
    (_normalize (column volatility_21d analyses) false)
    vw mw rw t a
  = Ok (ranked_of alg analyses vw mw rw (t, a)).
Proof.
  intros Hnd Hin.
  assert (Hk : In t (keys analyses)).
  { unfold keys. apply in_map_iff. exists (t, a). auto. }
  unfold score_one, dict_item at 1.
  rewrite (dict_get_NoDup _ _ _ Hnd Hin). simpl.
  rewrite !dict_item_normalized by trivial.
  unfold ranked_of, present_scores, mean.
  destruct (pe_ratio a), (pb_ratio a), (free_cash_flow_yield a); reflexivity.
Qed.

Lemma score_loop_Ok alg analyses vw mw rw :
  NoDup (keys analyses) ->
  score_loop alg analyses vw mw rw = Ok (map (ranked_of alg analyses vw mw rw) analyses).
Proof.
  intros Hnd. unfold score_loop. apply mapM_map.
  intros [t a] Hin. now apply score_one_Ok.
Qed.

(** ** The whole run *)

Lemma analyze_universe_run alg yf tickers period vw mw rw top_n :
  match fetch_loop alg yf period tickers [] [] with
  | Ok (analyses, failures) =>
      match analyses with
      | [] => analyze_universe alg yf tickers period vw mw rw top_n
              = AnalysisErr ("Unable to analyze any tickers. Reasons: " ++ joined failures)
      | _ :: _ => analyze_universe alg yf tickers period vw mw rw top_n
                  = Ok {| ranked := capped top_n (full_ranking alg analyses vw mw rw);
                          failures := failures |}
      end
  | AnalysisErr msg =>
      analyze_universe alg yf tickers period vw mw rw top_n = AnalysisErr msg
  | Unexpected _ => False
  end.
Proof.
  unfold analyze_universe.
  destruct (fetch_loop alg yf period tickers [] []) as [[analyses failures]|msg|msg] eqn:Hf;
    simpl; trivial.
  - destruct analyses as [|e analyses]; trivial.
    apply fetch_loop_Ok in Hf as ((_ & _ & Hnd & _) & _); [|apply fetch_sound_nil].
    rewrite score_loop_Ok by exact Hnd. simpl. destruct top_n; reflexivity.
  - now apply fetch_loop_not_Unexpected in Hf.
Qed.

Lemma analyze_universe_Ok alg yf tickers period vw mw rw top_n s :
  analyze_universe alg yf tickers period vw mw rw top_n = Ok s ->
  exists analyses,
    fetch_loop alg yf period tickers [] [] = Ok (analyses, failures s) /\
    analyses <> [] /\
    ranked s = capped top_n (full_ranking alg analyses vw mw rw).
Proof.
  intros H. pose proof (analyze_universe_run alg yf tickers period vw mw rw top_n) as R.
  destruct (fetch_loop alg yf period tickers [] []) as [[analyses fl]|msg|msg];
    [|congruence|contradiction].
  destruct analyses as [|e analyses]; [congruence|].
  rewrite R in H. injection H as <-. simpl. exists (e :: analyses).
  repeat split; trivial. discriminate.
Qed.

(** ** Sorting *)

Section Sorting.
Context {A : Type} (key : A -> float).

Lemma insert_asc_perm (x : A) (l : list A) : Permutation (insert_asc key x l) (x :: l).
Proof.
  induction l as [|y l IH]; simpl; [reflexivity|].
  destruct (key y <? key x); [|reflexivity].
  rewrite IH. apply perm_swap.
Qed.

Lemma fold_insert_perm (l acc : list A) :
  Permutation (fold_left (fun acc x => insert_asc key x acc) l acc) (l ++ acc).
Proof.
  revert acc. induction l as [|x l IH]; simpl; intros acc; [reflexivity|].
  rewrite IH, insert_asc_perm. symmetry. apply Permutation_middle.
Qed.

Lemma sort_reverse_perm (l : list A) : Permutation (sort_reverse key l) l.
Proof.
  unfold sort_reverse, sort_asc. rewrite rev_involutive.
  transitivity (fold_left (fun acc x => insert_asc key x acc) l []).
  - symmetry. apply Permutation_rev.
  - rewrite fold_insert_perm, app_nil_r. reflexivity.
Qed.

Lemma sort_reverse_length (l : list A) : len (sort_reverse key l) = len l.
Proof. apply Permutation_length, sort_reverse_perm. Qed.

Lemma insert_asc_HdRel (a x : A) (l : list A) :
  (key a <=? key x) = true ->
  HdRel (fun a b => (key a <=? key b) = true) a l ->
  HdRel (fun a b => (key a <=? key b) = true) a (insert_asc key x l).
Proof.
  intros Hax Hl. destruct l as [|y l]; simpl.
  - now constructor.
  - destruct (key y <? key x); constructor; trivial. now inversion Hl.
Qed.

Lemma insert_asc_sorted (x : A) (l : list A) :
  is_nan (key x) = false -> Forall (fun y => is_nan (key y) = false) l ->
  non_decreasing key l -> non_decreasing key (insert_asc key x l).
Proof.
  intros Hx. unfold non_decreasing.
  induction l as [|y l IH]; simpl; intros Hn Hs.
  - repeat constructor.
  - inversion Hn as [|? ? Hy Hn']; subst. inversion Hs as [|? ? Hs' Hd]; subst.
    destruct (key y <? key x) eqn:Hlt.
    + constructor; [auto|]. apply insert_asc_HdRel; trivial. now apply ltb_leb.
    + constructor; [assumption|]. constructor. now apply not_ltb_leb.
Qed.

Lemma fold_insert_sorted (l acc : list A) :
  Forall (fun y => is_nan (key y) = false) l ->
  Forall (fun y => is_nan (key y) = false) acc ->
  non_decreasing key acc ->
  non_decreasing key (fold_left (fun acc x => insert_asc key x acc) l acc).
Proof.
  revert acc. induction l as [|x l IH]; simpl; intros acc Hl Hacc Hs; trivial.
  inversion Hl as [|? ? Hx Hl']; subst. apply IH; trivial.
  - eapply Permutation_Forall; [symmetry; apply insert_asc_perm|]. now constructor.
  - now apply insert_asc_sorted.
Qed.

Lemma Sorted_snoc (R : A -> A -> Prop) (l : list A) (a : A) :
  Sorted R l -> (forall b, hd_error (rev l) = Some b -> R b a) -> Sorted R (l ++ [a]).
Proof.
  induction l as [|x l IH]; simpl; intros Hs Hlast.
  - repeat constructor.
  - inversion Hs as [|? ? Hs' Hd]; subst. constructor.
    + apply IH; trivial. intros b Hb. apply Hlast.
      destruct (rev l) as [|c r]; simpl in *; [discriminate | assumption].
    + destruct l as [|y l]; simpl.
      * constructor. apply Hlast. reflexivity.
      * constructor. now inversion Hd.
Qed.

Lemma Sorted_rev (R : A -> A -> Prop) (l : list A) :
  Sorted R l -> Sorted (fun a b => R b a) (rev l).
Proof.
  induction l as [|x l IH]; simpl; intros Hs; [constructor|].
  inversion Hs as [|? ? Hs' Hd]; subst. apply Sorted_snoc; [auto|].
  intros b Hb. rewrite rev_involutive in Hb.
  destruct l as [|y l]; simpl in Hb; [discriminate|]. injection Hb as <-.
  now inversion Hd.
Qed.

Lemma sort_reverse_sorted (l : list A) :
  Forall (fun y => is_nan (key y) = false) l -> non_increasing key (sort_reverse key l).
Proof.
  intros Hn. unfold non_increasing, sort_reverse, sort_asc.
  refine (@Sorted_rev (fun a b => (key a <=? key b) = true) _ _).
  apply fold_insert_sorted; try constructor.
  rewrite rev_involutive. exact Hn.
Qed.

Lemma Sorted_firstn (R : A -> A -> Prop) (n : nat) (l : list A) :
  Sorted R l -> Sorted R (firstn n l).
Proof.
  revert l. induction n as [|n IH]; intros [|x l] Hs; simpl; try constructor.
  - inversion Hs; auto.
  - inversion Hs as [|? ? Hs' Hd]; subst.
    destruct n, l; simpl; constructor. now inversion Hd.
Qed.

End Sorting.

(** ** What a normal return holds *)

Section Run.
Variables (alg : arithmetic) (yf : string -> string -> TickerData).
Variables (tickers : list string) (period : string).
Variables (vw mw rw : float) (top_n : option Z) (s : AnalysisSummary).
Hypothesis Hrun : analyze_universe alg yf tickers period vw mw rw top_n = Ok s.

Lemma run_fetch :
  fetch_loop alg yf period tickers [] []
  = Ok (surviving alg yf period tickers, failures s).
Proof.
  destruct (analyze_universe_Ok _ _ _ _ _ _ _ _ Hrun) as (analyses & Hf & _ & _).
  unfold surviving. now rewrite Hf.
Qed.

Lemma run_ranked :
  ranked s = capped top_n (full_ranking alg (surviving alg yf period tickers) vw mw rw).
Proof.
  destruct (analyze_universe_Ok _ _ _ _ _ _ _ _ Hrun) as (analyses & Hf & _ & Hr).
  unfold surviving. now rewrite Hf.
Qed.

Lemma run_surviving_nonempty : surviving alg yf period tickers <> [].
Proof.
  destruct (analyze_universe_Ok _ _ _ _ _ _ _ _ Hrun) as (analyses & Hf & Hne & _).
  unfold surviving. now rewrite Hf.
Qed.

Lemma run_sound :
  fetch_sound alg yf period (surviving alg yf period tickers) (failures s).
Proof. pose proof run_fetch as H. apply fetch_loop_Ok in H; [tauto | apply fetch_sound_nil]. Qed.

Lemma run_surviving_keys t :
  In t (keys (surviving alg yf period tickers)) <->
  In t tickers /\ exists a, _fetch_analysis alg yf t period = Ok a.
Proof.
  pose proof run_fetch as H.
  apply fetch_loop_Ok in H as (_ & HA & _); [|apply fetch_sound_nil].
  rewrite HA. simpl. tauto.
Qed.

Lemma run_failed_keys t :
  In t (failed_tickers s) <->
  In t tickers /\ exists m, _fetch_analysis alg yf t period = AnalysisErr m.
Proof.
  pose proof run_fetch as H.
  apply fetch_loop_Ok in H as (_ & _ & HF & _); [|apply fetch_sound_nil].
  unfold failed_tickers. rewrite HF. simpl. tauto.
Qed.

Lemma full_ranking_tickers :
  Permutation (map r_ticker (full_ranking alg (surviving alg yf period tickers) vw mw rw))
              (keys (surviving alg yf period tickers)).
Proof.
  unfold full_ranking. rewrite sort_reverse_perm, map_map. unfold keys.
  erewrite map_ext; [reflexivity|]. now intros [t a].
Qed.

Lemma In_capped {A : Type} (x : A) (l : list A) : In x (capped top_n l) -> In x l.
Proof.
  unfold capped. destruct top_n as [n|]; trivial.
  destruct (slice_to_prefix n l) as [k ->]. apply firstn_In.
Qed.

Lemma run_ranked_entry r :
  In r (ranked s) ->
  exists t a, In (t, a) (surviving alg yf period tickers) /\
              r = ranked_of alg (surviving alg yf period tickers) vw mw rw (t, a).
Proof.
  rewrite run_ranked. intros H. apply In_capped in H. unfold full_ranking in H.
  apply (Permutation_in _ (sort_reverse_perm _ _)) in H.
  apply in_map_iff in H as ([t a] & <- & Hin). eauto.
Qed.

End Run.

(** ** Sub-scores and composite score *)

(** C7: for every ranked ticker the value sub-score is the unweighted mean of
    the normalized scores of those of P/E, P/B and FCF yield that are present
    for it, 0.0 when none is, and the composite score is the plain weighted
    sum of the three sub-scores, the weights being used as given. *)
Theorem value_and_composite_scores
    alg yf tickers period value_weight momentum_weight risk_weight top_n s r :
  analyze_universe alg yf tickers period value_weight momentum_weight risk_weight top_n
  = Ok s ->
  In r (ranked s) ->
  let analyses := surviving alg yf period tickers in
  value_score r = mean alg (present_scores analyses (analysis r) (r_ticker r)) /\
  (pe_ratio (analysis r) = None -> pb_ratio (analysis r) = None ->
   free_cash_flow_yield (analysis r) = None -> value_score r = 0) /\
  momentum_score r = normalized momentum_21d true analyses (r_ticker r) /\
  risk_score r = normalized volatility_21d false analyses (r_ticker r) /\
  composite_score r
  = value_weight * value_score r + momentum_weight * momentum_score r
    + risk_weight * risk_score r.
Proof.
  intros Hrun Hin analyses.
  destruct (@run_ranked_entry _ _ _ _ _ _ _ _ _ Hrun _ Hin) as (t & a & _ & ->). simpl.
  repeat split. intros Hpe Hpb Hfcf. unfold present_scores.
  now rewrite Hpe, Hpb, Hfcf.
Qed.

Lemma value_and_composite_scores_witness :
  exists s r,
    analyze_universe plain_sum sample_market ["AAA"; "BBB"; "CCC"] "6mo"
      0x1p-1 0x1p-2 0x1p-2 (Some 20%Z) = Ok s /\
    In r (ranked s) /\ r_ticker r = "BBB" /\
    value_score r = 0x1p-1 /\
    composite_score r
    = 0x1p-1 * value_score r + 0x1p-2 * momentum_score r + 0x1p-2 * risk_score r.
Proof.
  eexists. eexists. split; [vm_compute; reflexivity|].
  split; [left; reflexivity|]. split; [reflexivity|]. split; [reflexivity|].
  refine (proj2 (proj2 (proj2 (proj2
    (@value_and_composite_scores plain_sum sample_market ["AAA"; "BBB"; "CCC"] "6mo"
       0x1p-1 0x1p-2 0x1p-2 (Some 20%Z) _ _ _ _))))).
  - vm_compute. reflexivity.
  - left. reflexivity.
Defined.

(** ** Ranking order *)

(** C8, as the code has it: when no surviving ticker's composite score is NaN,
    the ranked output of a normal return is in non-increasing order of
    composite score. *)
Theorem ranked_is_non_increasing
    alg yf tickers period value_weight momentum_weight risk_weight top_n s :
  analyze_universe alg yf tickers period value_weight momentum_weight risk_weight top_n
  = Ok s ->
  Forall (fun r => is_nan (composite_score r) = false)
         (full_ranking alg (surviving alg yf period tickers)
            value_weight momentum_weight risk_weight) ->
  non_increasing composite_score (ranked s).
Proof.
  intros Hrun Hnan. rewrite (@run_ranked _ _ _ _ _ _ _ _ _ Hrun).
  assert (Hs : non_increasing composite_score
                 (full_ranking alg (surviving alg yf period tickers)
                    value_weight momentum_weight risk_weight)).
  { apply sort_reverse_sorted.
    eapply Permutation_Forall; [apply sort_reverse_perm | exact Hnan]. }
  unfold capped. destruct top_n as [n|]; trivial.
  destruct (slice_to_prefix n (full_ranking alg (surviving alg yf period tickers)
                                 value_weight momentum_weight risk_weight)) as [k ->].
  now apply Sorted_firstn.
Qed.

Lemma ranked_is_non_increasing_witness :
  exists s,
    analyze_universe plain_sum sample_market ["AAA"; "BBB"; "CCC"] "6mo"
      0x1p-1 0x1p-2 0x1p-2 (Some 20%Z) = Ok s /\
    ranked_tickers s = ["BBB"; "AAA"] /\
    non_increasing composite_score (ranked s).
Proof.
  eexists. split; [vm_compute; reflexivity|]. split; [reflexivity|].
  apply (@ranked_is_non_increasing plain_sum sample_market ["AAA"; "BBB"; "CCC"] "6mo"
           0x1p-1 0x1p-2 0x1p-2 (Some 20%Z)).
  - vm_compute. reflexivity.
  - vm_compute. repeat constructor.
Defined.

(** With a NaN weight the run returns normally and the two ranked entries
    are not in non-increasing order (no order of them is). *)
Lemma nan_weight_breaks_order :
  exists s,
    analyze_universe plain_sum sample_market ["AAA"; "BBB"] "6mo"
      nan 0x1p-2 0x1p-2 (Some 20%Z) = Ok s /\
    len (ranked s) = 2%nat /\
    ~ non_increasing composite_score (ranked s) /\
    ~ non_increasing composite_score (rev (ranked s)).
Proof.
  eexists. split; [vm_compute; reflexivity|]. split; [reflexivity|].
  split; intros H; vm_compute in H; inversion H as [|? ? _ Hd]; subst;
    inversion Hd as [|? ? Hle]; subst; discriminate Hle.
Qed.

(** ** Ranked output and failure map *)

Lemma ranked_tickers_surviving alg yf tickers period vw mw rw top_n s t :
  analyze_universe alg yf tickers period vw mw rw top_n = Ok s ->
  In t (ranked_tickers s) -> In t (keys (surviving alg yf period tickers)).
Proof.
  intros Hrun Hin. unfold ranked_tickers in Hin.
  apply in_map_iff in Hin as (r & <- & Hr).
  destruct (@run_ranked_entry _ _ _ _ _ _ _ _ _ Hrun _ Hr) as (t & a & Hin & ->).
  simpl. unfold keys. apply in_map_iff. exists (t, a). auto.
Qed.

Lemma full_ranking_length alg analyses vw mw rw :
  len (full_ranking alg analyses vw mw rw) = len analyses.
Proof. unfold full_ranking. now rewrite sort_reverse_length, length_map. Qed.

(** C1, as the code has it: in a normal return no ticker is both ranked and
    failed, given that the data source answers alike when the input names a
    ticker twice (distinct input tickers are each fetched once, so for them
    this needs no assumption); every ranked or failed ticker is an input
    ticker, and, when the cap is absent or at least the number of surviving
    tickers, every input ticker is ranked or failed. *)
Theorem tickers_ranked_or_failed
    alg yf tickers period value_weight momentum_weight risk_weight top_n s :
  analyze_universe alg yf tickers period value_weight momentum_weight risk_weight top_n
  = Ok s ->
  (forall t, ~ (In t (ranked_tickers s) /\ In t (failed_tickers s))) /\
  (forall t, In t (ranked_tickers s) \/ In t (failed_tickers s) -> In t tickers) /\
  (cap_covers top_n (len (surviving alg yf period tickers)) ->
   forall t, In t tickers -> In t (ranked_tickers s) \/ In t (failed_tickers s)).
Proof.
  intros Hrun. split; [|split].
  - intros t [Hr Hf]. apply (@ranked_tickers_surviving _ _ _ _ _ _ _ _ _ _ Hrun) in Hr.
    apply (@run_surviving_keys _ _ _ _ _ _ _ _ _ Hrun) in Hr as (_ & a & Ha).
    apply (@run_failed_keys _ _ _ _ _ _ _ _ _ Hrun) in Hf as (_ & m & Hm). congruence.
  - intros t [Hr|Hf].
    + apply (@ranked_tickers_surviving _ _ _ _ _ _ _ _ _ _ Hrun) in Hr.
      now apply (@run_surviving_keys _ _ _ _ _ _ _ _ _ Hrun) in Hr.
    + now apply (@run_failed_keys _ _ _ _ _ _ _ _ _ Hrun) in Hf.
  - intros Hcap t Hin.
    destruct (_fetch_analysis alg yf t period) as [a|m|m] eqn:Ht.
    + left. unfold ranked_tickers. rewrite (@run_ranked _ _ _ _ _ _ _ _ _ Hrun).
      replace (capped top_n _)
        with (full_ranking alg (surviving alg yf period tickers)
                value_weight momentum_weight risk_weight).
      * eapply Permutation_in;
          [symmetry; apply (@full_ranking_tickers alg yf tickers period)|].
        apply (@run_surviving_keys _ _ _ _ _ _ _ _ _ Hrun). eauto.
      * unfold capped, cap_covers in *. destruct top_n as [n|]; trivial.
        symmetry. apply slice_to_all. now rewrite full_ranking_length.
    + right. apply (@run_failed_keys _ _ _ _ _ _ _ _ _ Hrun). eauto.
    + pose proof (@run_fetch _ _ _ _ _ _ _ _ _ Hrun) as Hf.
      apply fetch_loop_Ok in Hf as (_ & _ & _ & HU); [|apply fetch_sound_nil].
      now apply HU in Ht.
Qed.

Lemma tickers_ranked_or_failed_witness :
  exists s,
    analyze_universe plain_sum sample_market ["AAA"; "BBB"; "CCC"] "6mo"
      0x1p-1 0x1p-2 0x1p-2 (Some 2%Z) = Ok s /\
    ranked_tickers s = ["BBB"; "AAA"] /\ failed_tickers s = ["CCC"] /\
    forall t, In t ["AAA"; "BBB"; "CCC"] ->
              In t (ranked_tickers s) \/ In t (failed_tickers s).
Proof.
  eexists. split; [vm_compute; reflexivity|]. split; [reflexivity|].
  split; [reflexivity|].
  refine (proj2 (proj2
    (@tickers_ranked_or_failed plain_sum sample_market ["AAA"; "BBB"; "CCC"] "6mo"
       0x1p-1 0x1p-2 0x1p-2 (Some 2%Z) _ _)) _).
  - vm_compute. reflexivity.
  - vm_compute. discriminate.
Defined.

(** With a cap of 1 and two surviving tickers, the run returns normally and
    an input ticker is neither ranked nor failed. *)
Lemma capped_ticker_in_neither :
  exists s,
    analyze_universe plain_sum sample_market ["AAA"; "BBB"] "6mo"
      0x1p-1 0x1p-2 0x1p-2 (Some 1%Z) = Ok s /\
    In "AAA" ["AAA"; "BBB"] /\
    ~ In "AAA" (ranked_tickers s) /\ ~ In "AAA" (failed_tickers s).
Proof.
  eexists. split; [vm_compute; reflexivity|]. split; [left; reflexivity|].
  split; vm_compute; intuition discriminate.
Qed.

(** ** The cap *)

Lemma StronglySorted_app {A : Type} (R : A -> A -> Prop) (l1 l2 : list A) :
  StronglySorted R (l1 ++ l2) ->
  forall a b, In a l1 -> In b l2 -> R a b.
Proof.
  induction l1 as [|x l1 IH]; simpl; intros Hs a b Ha Hb; [contradiction|].
  inversion Hs as [|? ? Hs' Hall]; subst. destruct Ha as [<-|Ha].
  - rewrite Forall_forall in Hall. apply Hall, in_or_app. now right.
  - now apply IH.
Qed.

Lemma non_increasing_split {A : Type} (key : A -> float) (l1 l2 : list A) :
  non_increasing key (l1 ++ l2) ->
  forall a b, In a l1 -> In b l2 -> (key b <=? key a) = true.
Proof.
  intros Hs. apply StronglySorted_app.
  apply Sorted_StronglySorted; trivial.
  intros x y z Hxy Hyz. eapply leb_trans; eassumption.
Qed.

(** C9, as the code has it.  Whatever the composite scores are, the ranked
    output is a part of the scored surviving tickers: all of them when the cap
    is [None], exactly [min(top_n, survivors)] of them for a cap [top_n >= 0],
    and all but [-top_n] of them for a negative cap.  When no composite score
    is NaN, it is a prefix of the full ranking and no dropped entry scores
    above a kept one, so the kept tickers are those with the highest
    composite scores.  A cap that the caller leaves out is the default 20 of
    the signature, not [None]. *)
Theorem ranked_is_capped
    alg yf tickers period value_weight momentum_weight risk_weight top_n s :
  analyze_universe alg yf tickers period value_weight momentum_weight risk_weight top_n
  = Ok s ->
  let analyses := surviving alg yf period tickers in
  let scored := map (ranked_of alg analyses value_weight momentum_weight risk_weight)
                    analyses in
  let full := full_ranking alg analyses value_weight momentum_weight risk_weight in
  (exists dropped, Permutation (ranked s ++ dropped) scored) /\
  (top_n = None ->
   Permutation (ranked s) scored /\ Permutation (ranked_tickers s) (keys analyses)) /\
  (forall n, top_n = Some n -> (0 <= n)%Z ->
     Z.of_nat (len (ranked s)) = Z.min n (Z.of_nat (len analyses))) /\
  (forall n, top_n = Some n -> (n < 0)%Z ->
     Z.of_nat (len (ranked s)) = Z.max 0 (Z.of_nat (len analyses) + n)) /\
  (Forall (fun r => is_nan (composite_score r) = false) scored ->
   exists dropped,
     full = (ranked s ++ dropped)%list /\
     (top_n = None -> dropped = []) /\
     forall kept d, In kept (ranked s) -> In d dropped ->
                    (composite_score d <=? composite_score kept) = true).
Proof.
  intros Hrun analyses scored full.
  pose proof (@run_ranked _ _ _ _ _ _ _ _ _ Hrun) as Hr.
  simpl in Hr. fold analyses in Hr. fold full in Hr.
  assert (Hperm : Permutation full scored) by apply sort_reverse_perm.
  assert (Hlen : len full = len analyses) by apply full_ranking_length.
  assert (Hk : exists k, ranked s = firstn k full /\
                         (top_n = None -> skipn k full = [])).
  { rewrite Hr. unfold capped. destruct top_n as [n|].
    - destruct (slice_to_prefix n full) as [k ->]. exists k.
      split; [reflexivity | discriminate].
    - exists (len full). split; [now rewrite firstn_all | now rewrite skipn_all]. }
  destruct Hk as (k & Hk & Hnone).
  split; [|split; [|split; [|split]]].
  - exists (skipn k full). now rewrite Hk, firstn_skipn.
  - intros ->. simpl in Hr. unfold ranked_tickers. rewrite Hr. split; trivial.
    apply (@full_ranking_tickers alg yf tickers period).
  - intros n -> Hn. rewrite Hr. simpl. rewrite slice_to_length by trivial. lia.
  - intros n -> Hn. rewrite Hr. simpl. unfold slice_to.
    destruct (Z.leb_spec 0 n); [lia|]. rewrite length_firstn. lia.
  - intros Hnan. exists (skipn k full).
    split; [now rewrite Hk, firstn_skipn|]. split; trivial.
    intros kept d Hkept Hd.
    apply (@non_increasing_split _ composite_score (ranked s) (skipn k full)); trivial.
    rewrite Hk, firstn_skipn. unfold full, full_ranking.
    now apply sort_reverse_sorted.
Qed.

Lemma ranked_is_capped_witness :
  exists s,
    analyze_universe plain_sum sample_market ["AAA"; "BBB"; "CCC"] "6mo"
      0x1p-1 0x1p-2 0x1p-2 (Some 1%Z) = Ok s /\
    Z.of_nat (len (ranked s))
    = Z.min 1 (Z.of_nat (len (surviving plain_sum sample_market "6mo"
                                 ["AAA"; "BBB"; "CCC"]))).
Proof.
  eexists. split; [vm_compute; reflexivity|].
  refine (proj1 (proj2 (proj2
    (@ranked_is_capped plain_sum sample_market ["AAA"; "BBB"; "CCC"] "6mo"
       0x1p-1 0x1p-2 0x1p-2 (Some 1%Z) _ _))) 1%Z eq_refl _).
  - vm_compute. reflexivity.
  - lia.
Defined.

(** Two calls on which C9 as worded fails.  With 21 surviving
    tickers and the cap left out, the default 20 applies and one survivor is
    dropped: the full set is not returned.  With the cap -1 and two
    surviving tickers the ranked output has one entry, which is not
    [min(-1, 2)]. *)
Lemma unset_or_negative_cap :
  (exists s,
      analyze_universe_call plain_sum uniform_market twenty_one_tickers
        None None None None None = Ok s /\
      len (surviving plain_sum uniform_market "6mo" twenty_one_tickers) = 21%nat /\
      len (ranked s) = 20%nat) /\
  (exists s,
      analyze_universe plain_sum sample_market ["AAA"; "BBB"] "6mo"
        0x1p-1 0x1p-2 0x1p-2 (Some (-1)%Z) = Ok s /\
      len (surviving plain_sum sample_market "6mo" ["AAA"; "BBB"]) = 2%nat /\
      len (ranked s) = 1%nat /\
      Z.of_nat (len (ranked s)) <> Z.min (-1) 2).
Proof.
  split.
  - eexists. split; [vm_compute; reflexivity|]. split; vm_compute; reflexivity.
  - eexists. split; [vm_compute; reflexivity|]. split; [reflexivity|].
    split; [reflexivity|]. vm_compute. discriminate.
Qed.

(** ** Fatal errors *)

Lemma fetch_loop_failures alg yf period tickers analyses fl :
  fetch_loop alg yf period tickers [] [] = Ok (analyses, fl) ->
  forall t m, dict_get fl t = Some m <->
              In t tickers /\ _fetch_analysis alg yf t period = AnalysisErr m.
Proof.
  intros H. apply fetch_loop_Ok in H as ((_ & HF & _) & _ & HK & _);
    [|apply fetch_sound_nil].
  intros t m. split.
  - intros Hg. split; [|now apply HF].
    assert (Hin : In t (keys fl)) by (apply dict_get_keys; eauto).
    apply HK in Hin. simpl in Hin. tauto.
  - intros [Hin Hm].
    assert (Hk : In t (keys fl)) by (apply HK; eauto).
    apply dict_get_keys in Hk as [m' Hg]. pose proof (HF _ _ Hg). congruence.
Qed.

(** ** Range of the normalized scores *)

(** A ticker without a usable value scores 0.0, whatever the orientation. *)
Lemma normalize_unusable_zero metric higher_is_better t v :
  NoDup (keys metric) -> In (t, v) metric -> usable v = false ->
  dict_get (_normalize metric higher_is_better) t = Some 0.
Proof.
  intros Hnd Hin Hu.
  assert (Hk : NoDup (keys (_normalize metric higher_is_better)))
    by now rewrite normalize_keys.
  apply (dict_get_NoDup _ _ _ Hk). unfold _normalize.
  destruct (values (valid_of metric)) as [|v0 vs].
  - apply in_map_iff. exists (t, v). auto.
  - destruct (isclose _ _); apply in_map_iff; exists (t, v); split; trivial;
      rewrite (@valid_of_mem metric t v Hnd Hin), Hu; reflexivity.
Qed.

(** C3 fails on the code: with the usable values 1e308 and -1e308 the range
    [max - min] overflows to infinity, and the ticker holding the maximum gets
    the score [inf / inf], which is NaN and so outside [0, 1], for both
    orientations; the ticker without a value still gets 0.0. *)
Theorem normalize_range_overflow :
  _normalize [("A", Some 0x1.1ccf385ebc8a0p+1023);
              ("B", Some (-0x1.1ccf385ebc8a0p+1023)); ("C", None)] true
  = [("A", nan); ("B", 0); ("C", 0)] /\
  _normalize [("A", Some 0x1.1ccf385ebc8a0p+1023);
              ("B", Some (-0x1.1ccf385ebc8a0p+1023)); ("C", None)] false
  = [("A", nan); ("B", 1); ("C", 0)] /\
  (0 <=? nan) = false /\ (nan <=? 1) = false.
Proof. repeat split; vm_compute; reflexivity. Qed.

(** * Further properties of the extractor and the scorer *)

(** ** Soft failures of extraction *)

Lemma compute_momentum_AnalysisErr close m :
  _compute_momentum close = AnalysisErr m ->
  m = "Not enough price history to compute momentum".
Proof.
  unfold _compute_momentum. destruct (_ <=? _)%nat; [congruence|].
  unfold py_div. destruct (_ =? 0); simpl; discriminate.
Qed.

Lemma compute_volatility_AnalysisErr alg returns m :
  _compute_volatility alg returns = AnalysisErr m ->
  m = "Not enough return history to compute volatility".
Proof.
  unfold _compute_volatility. destruct (_ <? _)%nat; [congruence|].
  destruct (mapM _ _) as [squares|m'|m'] eqn:Hs; simpl.
  - unfold py_sqrt. destruct (_ <? 0); simpl; discriminate.
  - exfalso. revert Hs. apply mapM_not_AnalysisErr.
    intros a m0. apply py_square_not_AnalysisErr.
  - discriminate.
Qed.

(** X1: The reason recorded for a ticker that fails softly is one of three
    messages. *)
Theorem soft_failure_reasons alg yf t period m :
  _fetch_analysis alg yf t period = AnalysisErr m ->
  m = "No price history available" \/
  m = "Not enough price history to compute momentum" \/
  m = "Not enough return history to compute volatility".
Proof.
  unfold _fetch_analysis.
  destruct (history (yf t period)) as [e|h]; simpl; [discriminate|].
  destruct (Close h) as [|c cs] eqn:Hc; [intros H; injection H as <-; auto|].
  destruct (_compute_momentum (c :: cs)) as [mo|e|e] eqn:Hm; simpl;
    [|intros H; injection H as <-;
      apply compute_momentum_AnalysisErr in Hm; auto | discriminate].
  destruct (_compute_volatility alg (Close_pct_change h)) as [v|e|e] eqn:Hv; simpl;
    [|intros H; injection H as <-;
      apply compute_volatility_AnalysisErr in Hv; auto | discriminate].
  destruct (fast_info (yf t period)); simpl; [discriminate|].
  destruct (cashflow (yf t period)); simpl; discriminate.
Qed.

Lemma soft_failure_reasons_witness :
  _fetch_analysis plain_sum sample_market "CCC" "6mo"
  = AnalysisErr "No price history available" /\
  ("No price history available" = "No price history available" \/
   "No price history available" = "Not enough price history to compute momentum" \/
   "No price history available" = "Not enough return history to compute volatility").
Proof.
  split; [vm_compute; reflexivity|].
  apply (@soft_failure_reasons plain_sum sample_market "CCC" "6mo").
  vm_compute. reflexivity.
Defined.

(** X2: A price history of 1 to 21 closes is a soft failure, whatever the returns,
    the fundamentals and the cash flow are, even if reading them would raise. *)
Theorem short_history_is_soft alg yf t period h :
  history (yf t period) = inr h ->
  (1 <= len (Close h) <= 21)%nat ->
  _fetch_analysis alg yf t period
  = AnalysisErr "Not enough price history to compute momentum".
Proof.
  intros Hh [Hlo Hhi]. unfold _fetch_analysis. rewrite Hh. simpl.
  destruct (Close h) as [|c cs] eqn:Hc; [simpl in Hlo; lia|].
  unfold _compute_momentum, LOOKBACK_DAYS.
  replace (len (c :: cs) <=? 21)%nat with true by (symmetry; apply Nat.leb_le; lia).
  reflexivity.
Qed.

Lemma short_history_is_soft_witness :
  _fetch_analysis plain_sum thin_market "ZZZ" "6mo"
  = AnalysisErr "Not enough price history to compute momentum".
Proof.
  apply (@short_history_is_soft plain_sum thin_market "ZZZ" "6mo"
           {| Close := [10; 11; 12; 11; 10];
              Close_pct_change := [0x1p-3; 0x1p-4; 0x1p-4; 0x1p-4] |}).
  - reflexivity.
  - simpl. lia.
Defined.

(** ** Fundamentals of a surviving analysis *)

Lemma fetch_analysis_fundamentals alg yf t period a :
  _fetch_analysis alg yf t period = Ok a ->
  exists info cf,
    fast_info (yf t period) = inr info /\ cashflow (yf t period) = inr cf /\
    pe_ratio a = py_or (fi_pe_ratio info) (fi_trailing_pe info) /\
    pb_ratio a = py_or (fi_pb_ratio info) (fi_price_to_book info) /\
    market_cap a = fi_market_cap info /\
    free_cash_flow_yield a = fcf_yield_of (free_cash_flow_of cf) (fi_market_cap info).
Proof.
  unfold _fetch_analysis. intros H.
  apply bind_Ok in H as (h & _ & H).
  destruct (Close h); [discriminate|].
  apply bind_Ok in H as (m & _ & H). apply bind_Ok in H as (v & _ & H).
  apply bind_Ok in H as (info & Hi & H). apply bind_Ok in H as (cf & Hc & H).
  injection H as <-. simpl.
  destruct (fast_info (yf t period)) as [e|info']; simpl in Hi; [discriminate|].
  destruct (cashflow (yf t period)) as [e|cf']; simpl in Hc; [discriminate|].
  injection Hi as ->. injection Hc as ->. exists info, cf. auto 10.
Qed.

(** X3: The free-cash-flow yield of a surviving analysis is the latest free cash
    flow found in the cash-flow statement divided by the market
    capitalisation, exactly when both are there and the market cap is not
    zero; with a missing or zero market cap it stays unset, so no division by
    zero arises from it. *)
Theorem fcf_yield_needs_market_cap alg yf t period a :
  _fetch_analysis alg yf t period = Ok a ->
  (forall y, free_cash_flow_yield a = Some y ->
             exists cf fcf mc,
               cashflow (yf t period) = inr cf /\
               free_cash_flow_of cf = Some fcf /\
               market_cap a = Some mc /\ (mc =? 0) = false /\
               y = fcf / mc) /\
  (forall cf fcf mc,
      cashflow (yf t period) = inr cf -> free_cash_flow_of cf = Some fcf ->
      market_cap a = Some mc -> (mc =? 0) = false ->
      free_cash_flow_yield a = Some (fcf / mc)) /\
  (market_cap a = None -> free_cash_flow_yield a = None) /\
  (forall mc, market_cap a = Some mc -> (mc =? 0) = true ->
              free_cash_flow_yield a = None).
Proof.
  intros H. apply fetch_analysis_fundamentals in H
    as (info & cf & _ & Hcf & _ & _ & -> & ->).
  unfold fcf_yield_of, truthy. split; [|split; [|split]].
  - intros y Hy. destruct (free_cash_flow_of cf) as [fcf|] eqn:Hf; [|discriminate].
    destruct (fi_market_cap info) as [mc|]; [|discriminate].
    destruct (mc =? 0) eqn:Hz; simpl in Hy; [discriminate|].
    injection Hy as <-. exists cf, fcf, mc. auto.
  - intros cf' fcf mc Hcf' Hf Hmc Hz.
    assert (cf' = cf) as -> by congruence.
    now rewrite Hf, Hmc, Hz.
  - intros ->. now destruct (free_cash_flow_of cf).
  - intros mc -> Hz. rewrite Hz. now destruct (free_cash_flow_of cf).
Qed.

Lemma fcf_yield_needs_market_cap_witness :
  exists a,
    _fetch_analysis plain_sum sample_market "AAA" "6mo" = Ok a /\
    free_cash_flow_yield a = Some (50 / 1000).
Proof.
  eexists. split; [vm_compute; reflexivity|].
  refine (proj1 (proj2 (@fcf_yield_needs_market_cap plain_sum sample_market "AAA" "6mo"
                          _ ltac:(vm_compute; reflexivity)))
            _ 50 1000 ltac:(vm_compute; reflexivity) _ _ _);
    vm_compute; reflexivity.
Defined.

(** X4: A P/E (or P/B) of 0.0 under the primary key counts as missing: the
    analysis then takes the value under the fallback key, as it does when the
    primary key is absent; a non-zero primary value is kept. *)
Theorem zero_ratio_falls_back alg yf t period a info :
  _fetch_analysis alg yf t period = Ok a ->
  fast_info (yf t period) = inr info ->
  (forall x, fi_pe_ratio info = Some x -> (x =? 0) = false -> pe_ratio a = Some x) /\
  (forall x, fi_pe_ratio info = Some x -> (x =? 0) = true ->
             pe_ratio a = fi_trailing_pe info) /\
  (fi_pe_ratio info = None -> pe_ratio a = fi_trailing_pe info) /\
  (forall x, fi_pb_ratio info = Some x -> (x =? 0) = false -> pb_ratio a = Some x) /\
  (forall x, fi_pb_ratio info = Some x -> (x =? 0) = true ->
             pb_ratio a = fi_price_to_book info) /\
  (fi_pb_ratio info = None -> pb_ratio a = fi_price_to_book info).
Proof.
  intros H Hi. apply fetch_analysis_fundamentals in H
    as (info' & cf & Hi' & _ & -> & -> & _ & _).
  assert (info' = info) as -> by congruence.
  unfold py_or, truthy.
  repeat split; intros; repeat match goal with
                               | H : _ = Some _ |- _ => rewrite H
                               | H : _ = None |- _ => rewrite H
                               | H : (_ =? 0) = _ |- _ => rewrite H
                               end; reflexivity.
Qed.

Lemma zero_ratio_falls_back_witness :
  exists a,
    _fetch_analysis plain_sum sample_market "BBB" "6mo" = Ok a /\
    pe_ratio a = Some 20.
Proof.
  eexists. split; [vm_compute; reflexivity|].
  exact (proj1 (proj2 (proj2
    (@zero_ratio_falls_back plain_sum sample_market "BBB" "6mo" _
       {| fi_pe_ratio := None; fi_trailing_pe := Some 20;
          fi_pb_ratio := Some 1; fi_price_to_book := None;
          fi_market_cap := Some 2000 |}
       ltac:(vm_compute; reflexivity) eq_refl))) eq_refl).
Defined.

(** ** Ranked entries and their analyses *)

Lemma NoDup_firstn {A : Type} (n : nat) (l : list A) : NoDup l -> NoDup (firstn n l).
Proof.
  intros H. rewrite <- (firstn_skipn n l) in H. now apply NoDup_app_remove_r in H.
Qed.

(** X5: Every ranked entry is about an input ticker and carries the analysis that
    extraction returns for that very ticker; the analysis names the ticker. *)
Theorem ranked_entry_is_fetched alg yf tickers period vw mw rw top_n s r :
  analyze_universe alg yf tickers period vw mw rw top_n = Ok s ->
  In r (ranked s) ->
  In (r_ticker r) tickers /\
  _fetch_analysis alg yf (r_ticker r) period = Ok (analysis r) /\
  ticker (analysis r) = r_ticker r.
Proof.
  intros Hrun Hin.
  destruct (@run_ranked_entry _ _ _ _ _ _ _ _ _ Hrun _ Hin) as (t & a & Ha & ->).
  simpl.
  destruct (@run_sound _ _ _ _ _ _ _ _ _ Hrun) as (HA & _ & Hnd & _).
  assert (Hf : _fetch_analysis alg yf t period = Ok a)
    by (apply HA; now apply dict_get_NoDup).
  repeat split; trivial.
  - apply (@run_surviving_keys _ _ _ _ _ _ _ _ _ Hrun).
    unfold keys. apply in_map_iff. exists (t, a). auto.
  - now apply fetch_analysis_Ok in Hf.
Qed.

Lemma ranked_entry_is_fetched_witness :
  exists s r,
    analyze_universe plain_sum sample_market ["AAA"; "BBB"; "CCC"] "6mo"
      0x1p-1 0x1p-2 0x1p-2 (Some 20%Z) = Ok s /\
    In r (ranked s) /\
    _fetch_analysis plain_sum sample_market (r_ticker r) "6mo" = Ok (analysis r).
Proof.
  eexists. eexists. split; [vm_compute; reflexivity|].
  split; [left; reflexivity|].
  refine (proj1 (proj2 (@ranked_entry_is_fetched plain_sum sample_market
                          ["AAA"; "BBB"; "CCC"] "6mo" 0x1p-1 0x1p-2 0x1p-2
                          (Some 20%Z) _ _ _ _))).
  - vm_compute. reflexivity.
  - left. reflexivity.
Defined.

(** X6: No ticker is ranked twice, even when the input names it more than once. *)
Theorem ranked_tickers_NoDup alg yf tickers period vw mw rw top_n s :
  analyze_universe alg yf tickers period vw mw rw top_n = Ok s ->
  NoDup (ranked_tickers s).
Proof.
  intros Hrun. unfold ranked_tickers. rewrite (@run_ranked _ _ _ _ _ _ _ _ _ Hrun).
  assert (Hfull : NoDup (map r_ticker
                    (full_ranking alg (surviving alg yf period tickers) vw mw rw))).
  { eapply Permutation_NoDup;
      [symmetry; apply (@full_ranking_tickers alg yf tickers period)|].
    now destruct (@run_sound _ _ _ _ _ _ _ _ _ Hrun) as (_ & _ & Hnd & _). }
  unfold capped. destruct top_n as [n|]; trivial.
  destruct (slice_to_prefix n
              (full_ranking alg (surviving alg yf period tickers) vw mw rw)) as [k ->].
  rewrite <- firstn_map. now apply NoDup_firstn.
Qed.

Lemma ranked_tickers_NoDup_witness :
  exists s,
    analyze_universe plain_sum sample_market ["AAA"; "BBB"; "AAA"; "BBB"] "6mo"
      0x1p-1 0x1p-2 0x1p-2 None = Ok s /\
    len (ranked s) = 2%nat /\ NoDup (ranked_tickers s).
Proof.
  eexists. split; [vm_compute; reflexivity|]. split; [reflexivity|].
  apply (@ranked_tickers_NoDup plain_sum sample_market ["AAA"; "BBB"; "AAA"; "BBB"]
           "6mo" 0x1p-1 0x1p-2 0x1p-2 None).
  vm_compute. reflexivity.
Defined.

(** ** The first unexpected failure *)

Lemma fetch_loop_first_unexpected alg yf period pre t post exc :
  (forall u, In u pre -> forall m, _fetch_analysis alg yf u period <> Unexpected m) ->
  _fetch_analysis alg yf t period = Unexpected exc ->
  forall A F,
    fetch_loop alg yf period (pre ++ t :: post) A F
    = AnalysisErr ("Failed to analyze " ++ t ++ ": " ++ exc).
Proof.
  intros Hpre Ht. induction pre as [|u pre IH]; simpl; intros A F.
  - now rewrite Ht.
  - destruct (_fetch_analysis alg yf u period) as [a|m|m] eqn:Hu.
    + apply IH. intros v Hv. apply Hpre. now right.
    + apply IH. intros v Hv. apply Hpre. now right.
    + exfalso. apply (Hpre u (or_introl eq_refl) m Hu).
Qed.

(** X7: The run stops at the first ticker whose extraction raises anything but
    [AnalysisError]: the error names that ticker and its cause, whatever the
    tickers after it would have given and whatever was analysed before it. *)
Theorem first_unexpected_failure_is_raised
    alg yf period vw mw rw top_n pre t post exc :
  (forall u, In u pre -> forall m, _fetch_analysis alg yf u period <> Unexpected m) ->
  _fetch_analysis alg yf t period = Unexpected exc ->
  analyze_universe alg yf (pre ++ t :: post) period vw mw rw top_n
  = AnalysisErr ("Failed to analyze " ++ t ++ ": " ++ exc).
Proof.
  intros Hpre Ht. unfold analyze_universe.
  now rewrite (@fetch_loop_first_unexpected alg yf period pre t post exc Hpre Ht).
Qed.

Lemma first_unexpected_failure_is_raised_witness :
  analyze_universe plain_sum sample_market (["AAA"; "CCC"] ++ "DDD" :: ["BBB"]) "6mo"
    0x1p-1 0x1p-2 0x1p-2 (Some 20%Z)
  = AnalysisErr "Failed to analyze DDD: connection reset".
Proof.
  apply (@first_unexpected_failure_is_raised plain_sum sample_market "6mo"
           0x1p-1 0x1p-2 0x1p-2 (Some 20%Z) ["AAA"; "CCC"] "DDD" ["BBB"]
           "connection reset").
  - intros u [<-|[<-|[]]] m; vm_compute; discriminate.
  - vm_compute. reflexivity.
Defined.

(** ** Repeated input tickers *)

Lemma dict_set_same {V : Type} (d : dict V) k v :
  dict_get d k = Some v -> dict_set d k v = d.
Proof.
  induction d as [|[k' v'] d IH]; simpl; [discriminate|].
  destruct (String.eqb k k'); intros H.
  - now injection H as ->.
  - now rewrite IH.
Qed.

Lemma settled_step_analysis alg yf period A F t u a :
  u <> t -> settled alg yf period A F t -> settled alg yf period (dict_set A u a) F t.
Proof.
  intros Hne [(a' & Hg & Hf)|(m & Hg & Hf)]; [left | right]; eauto.
  exists a'. rewrite dict_get_set.
  destruct (String.eqb_spec t u); [congruence | auto].
Qed.

Lemma settled_step_failure alg yf period A F t u m :
  u <> t -> settled alg yf period A F t -> settled alg yf period A (dict_set F u m) t.
Proof.
  intros Hne [(a' & Hg & Hf)|(m' & Hg & Hf)]; [left | right]; eauto.
  exists m'. rewrite dict_get_set.
  destruct (String.eqb_spec t u); [congruence | auto].
Qed.

Lemma fetch_loop_skip_settled alg yf period t l : forall A F,
  settled alg yf period A F t ->
  fetch_loop alg yf period l A F
  = fetch_loop alg yf period (filter (fun u => negb (String.eqb u t)) l) A F.
Proof.
  induction l as [|u l IH]; intros A F Hs; simpl; trivial.
  destruct (String.eqb_spec u t) as [->|Hne]; simpl.
  - destruct Hs as [(a & Hg & Hf)|(m & Hg & Hf)]; rewrite Hf.
    + rewrite (dict_set_same _ _ Hg). apply IH. left. eauto.
    + rewrite (dict_set_same _ _ Hg). apply IH. right. eauto.
  - destruct (_fetch_analysis alg yf u period) as [a|m|m]; trivial.
    + apply IH. now apply settled_step_analysis.
    + apply IH. now apply settled_step_failure.
Qed.

Lemma fetch_loop_first_occurrences alg yf period l : forall A F,
  fetch_loop alg yf period l A F
  = fetch_loop alg yf period (first_occurrences l) A F.
Proof.
  induction l as [|t l IH]; intros A F; simpl; trivial.
  destruct (_fetch_analysis alg yf t period) as [a|m|m] eqn:Ht; trivial.
  - rewrite IH. apply fetch_loop_skip_settled. left. exists a.
    split; trivial. rewrite dict_get_set. now rewrite String.eqb_refl.
  - rewrite IH. apply fetch_loop_skip_settled. right. exists m.
    split; trivial. rewrite dict_get_set. now rewrite String.eqb_refl.
Qed.

(** X8: Naming a ticker again changes nothing: as long as the data source answers
    alike for the same ticker and period, the run on a list of tickers equals,
    result or error, the run on the list of their first occurrences. *)
Theorem repeated_tickers_are_ignored alg yf tickers period vw mw rw top_n :
  analyze_universe alg yf tickers period vw mw rw top_n
  = analyze_universe alg yf (first_occurrences tickers) period vw mw rw top_n.
Proof. unfold analyze_universe. now rewrite fetch_loop_first_occurrences. Qed.

(** ** Ties in the ranking *)

Lemma SFltb_SFeqb (y x c : spec_float) :
  SFltb y x = true -> SFeqb x c = true -> SFeqb y c = false.
Proof.
  unfold SFltb, SFeqb, SFcompare.
  destruct x as [sx|sx| |sx mx ex], y as [sy|sy| |sy my ey], c as [sc|sc| |sc mc ec];
    try discriminate; try reflexivity;
    repeat match goal with s : bool |- _ => destruct s end;
    try discriminate; try reflexivity;
    change (PosDef.Pos.compare_cont Eq) with Pos.compare;
    repeat match goal with
           | |- context [(?a ?= ?b)%Z] => destruct (Z.compare_spec a b)
           | |- context [(?a ?= ?b)%positive] => destruct (Pos.compare_spec a b)
           end; simpl; try discriminate; try reflexivity; intros; subst; lia.
Qed.

Lemma ltb_eqb_false (y x c : float) :
  (y <? x) = true -> (x =? c) = true -> (y =? c) = false.
Proof.
  rewrite FloatAxioms.ltb_spec, !FloatAxioms.eqb_spec. apply SFltb_SFeqb.
Qed.

Section Stability.
Context {A : Type} (key : A -> float) (c : float).

Lemma insert_asc_tied (x : A) (l : list A) :
  filter (tied key c) (rev (insert_asc key x l))
  = (filter (tied key c) (rev l) ++ (if tied key c x then [x] else []))%list.
Proof.
  induction l as [|y l IH]; simpl.
  - destruct (tied key c x); reflexivity.
  - destruct (key y <? key x) eqn:Hlt; simpl.
    + rewrite !filter_app, IH, <- !app_assoc. f_equal. simpl.
      destruct (tied key c x) eqn:Hx; [|now rewrite app_nil_r].
      unfold tied in *. now rewrite (@ltb_eqb_false (key y) (key x) c Hlt Hx).
    + now rewrite !filter_app.
Qed.

Lemma fold_insert_tied (l : list A) : forall acc,
  filter (tied key c) (rev (fold_left (fun acc x => insert_asc key x acc) l acc))
  = (filter (tied key c) (rev acc) ++ filter (tied key c) l)%list.
Proof.
  induction l as [|x l IH]; intros acc; simpl.
  - now rewrite app_nil_r.
  - rewrite IH, insert_asc_tied, <- app_assoc. f_equal.
    destruct (tied key c x); reflexivity.
Qed.

Lemma sort_reverse_tied (l : list A) :
  filter (tied key c) (sort_reverse key l) = filter (tied key c) l.
Proof.
  unfold sort_reverse, sort_asc. rewrite rev_involutive.
  now rewrite fold_insert_tied.
Qed.

Lemma filter_firstn (p : A -> bool) (n : nat) (l : list A) :
  exists k, filter p (firstn n l) = firstn k (filter p l).
Proof.
  revert n. induction l as [|x l IH]; intros [|n]; simpl;
    try (exists 0%nat; reflexivity).
  destruct (IH n) as [k Hk]. destruct (p x).
  - exists (S k). simpl. now rewrite Hk.
  - now exists k.
Qed.

End Stability.

(** X9: When no composite score is NaN, the ranked entries whose composite score
    equals a given value keep the order in which their tickers were analysed:
    the sort is stable, so it never swaps two entries of equal score, and the
    cap keeps a prefix of them. *)
Theorem ties_keep_analysis_order alg yf tickers period vw mw rw top_n s c :
  analyze_universe alg yf tickers period vw mw rw top_n = Ok s ->
  let analyses := surviving alg yf period tickers in
  let scored := map (ranked_of alg analyses vw mw rw) analyses in
  Forall (fun r => is_nan (composite_score r) = false) scored ->
  (top_n = None ->
   filter (tied composite_score c) (ranked s) = filter (tied composite_score c) scored) /\
  exists k, filter (tied composite_score c) (ranked s)
            = firstn k (filter (tied composite_score c) scored).
Proof.
  intros Hrun analyses scored _. rewrite (@run_ranked _ _ _ _ _ _ _ _ _ Hrun).
  fold analyses. unfold full_ranking. fold scored. split.
  - intros ->. simpl. apply sort_reverse_tied.
  - unfold capped. destruct top_n as [n|].
    + destruct (slice_to_prefix n (sort_reverse composite_score scored)) as [k ->].
      destruct (filter_firstn (tied composite_score c) k
                  (sort_reverse composite_score scored)) as [k' ->].
      exists k'. now rewrite sort_reverse_tied.
    + exists (len (filter (tied composite_score c) scored)).
      rewrite firstn_all. apply sort_reverse_tied.
Qed.

Lemma ties_keep_analysis_order_witness :
  exists s,
    analyze_universe plain_sum sample_market ["BBB"; "AAA"] "6mo" 0 0 0 None = Ok s /\
    map r_ticker (ranked s) = ["BBB"; "AAA"] /\
    filter (tied composite_score 0) (ranked s)
    = filter (tied composite_score 0)
        (map (ranked_of plain_sum (surviving plain_sum sample_market "6mo" ["BBB"; "AAA"])
                0 0 0)
             (surviving plain_sum sample_market "6mo" ["BBB"; "AAA"])).
Proof.
  eexists. split; [vm_compute; reflexivity|]. split; [reflexivity|].
  refine (proj1 (@ties_keep_analysis_order plain_sum sample_market ["BBB"; "AAA"]
                   "6mo" 0 0 0 None _ 0 _ _) eq_refl).
  - vm_compute. reflexivity.
  - vm_compute. repeat constructor.
Defined.

(** ** Order of processing *)

Lemma keys_set_new {V : Type} (d : dict V) k v :
  ~ In k (keys d) -> keys (dict_set d k v) = (keys d ++ [k])%list.
Proof.
  induction d as [|[k' v'] d IH]; simpl; intros Hn; trivial.
  destruct (String.eqb_spec k k') as [->|Hne]; [tauto|].
  simpl. f_equal. apply IH. tauto.
Qed.

Lemma first_occurrences_NoDup l : NoDup (first_occurrences l).
Proof.
  induction l as [|t l IH]; simpl; constructor.
  - rewrite filter_In, String.eqb_refl. simpl. intros [_ H]. discriminate.
  - now apply NoDup_filter.
Qed.

Lemma fetch_loop_order alg yf period l : forall A F A' F',
  NoDup l ->
  (forall t, In t l -> ~ In t (keys A) /\ ~ In t (keys F)) ->
  fetch_loop alg yf period l A F = Ok (A', F') ->
  keys A' = (keys A ++ filter (extracted alg yf period) l)%list /\
  keys F' = (keys F ++ filter (soft_failed alg yf period) l)%list.
Proof.
  induction l as [|t l IH]; simpl; intros A F A' F' Hnd Hnew H.
  - injection H as <- <-. now rewrite !app_nil_r.
  - inversion Hnd as [|? ? Hnotin Hnd']; subst.
    destruct (Hnew t (or_introl eq_refl)) as [HtA HtF].
    unfold extracted, soft_failed.
    destruct (_fetch_analysis alg yf t period) as [a|m|m] eqn:Ht; [| |discriminate].
    + apply IH in H; trivial.
      * rewrite keys_set_new, <- app_assoc in H by exact HtA. exact H.
      * intros u Hu. destruct (Hnew u (or_intror Hu)) as [HuA HuF].
        split; trivial. rewrite keys_set. intros [->|]; contradiction.
    + apply IH in H; trivial.
      * rewrite keys_set_new, <- app_assoc in H by exact HtF. exact H.
      * intros u Hu. destruct (Hnew u (or_intror Hu)) as [HuA HuF].
        split; trivial. rewrite keys_set. intros [->|]; contradiction.
Qed.

(** X10: Both dicts list their tickers in the order of first occurrence in the
    input: the analysed tickers are those first occurrences whose extraction
    returns, and the keys of the failure map are those whose extraction raises
    [AnalysisError], each in input order. *)
Theorem tickers_are_kept_in_input_order alg yf tickers period vw mw rw top_n s :
  analyze_universe alg yf tickers period vw mw rw top_n = Ok s ->
  keys (surviving alg yf period tickers)
  = filter (extracted alg yf period) (first_occurrences tickers) /\
  failed_tickers s
  = filter (soft_failed alg yf period) (first_occurrences tickers).
Proof.
  intros Hrun. pose proof (@run_fetch _ _ _ _ _ _ _ _ _ Hrun) as Hf.
  rewrite fetch_loop_first_occurrences in Hf.
  apply fetch_loop_order in Hf; [exact Hf | apply first_occurrences_NoDup|].
  simpl. tauto.
Qed.

Lemma tickers_are_kept_in_input_order_witness :
  exists s,
    analyze_universe plain_sum sample_market ["CCC"; "BBB"; "EEE"; "BBB"; "AAA"; "CCC"]
      "6mo" 0x1p-1 0x1p-2 0x1p-2 None = Ok s /\
    keys (surviving plain_sum sample_market "6mo"
            ["CCC"; "BBB"; "EEE"; "BBB"; "AAA"; "CCC"]) = ["BBB"; "AAA"] /\
    failed_tickers s = ["CCC"; "EEE"].
Proof.
  eexists. split; [vm_compute; reflexivity|].
  pose proof (@tickers_are_kept_in_input_order plain_sum sample_market
                ["CCC"; "BBB"; "EEE"; "BBB"; "AAA"; "CCC"] "6mo"
                0x1p-1 0x1p-2 0x1p-2 None _ ltac:(vm_compute; reflexivity)) as [H1 H2].
  split.
  - rewrite H1. vm_compute. reflexivity.
  - rewrite H2. vm_compute. reflexivity.
Defined.

(** ** The score of the lowest value *)

Lemma isfinite_spec (x : float) : isfinite x = true <-> SFfin (Prim2SF x).
Proof.
  unfold isfinite, is_nan, is_inf. rewrite !FloatAxioms.eqb_spec.
  change (Prim2SF infinity) with (S754_infinity false).
  change (Prim2SF neg_infinity) with (S754_infinity true).
  unfold SFeqb.
  destruct (Prim2SF x) as [s|s| |s m e]; simpl.
  - tauto.
  - destruct s; simpl; intuition discriminate.
  - intuition discriminate.
  - destruct s; rewrite Z.compare_refl, Pos.compare_cont_refl; simpl; tauto.
Qed.

Lemma shr_1_nonneg mrs : (0 <= shr_m mrs)%Z -> (0 <= shr_m (shr_1 mrs))%Z.
Proof.
  destruct mrs as [m r s]. simpl. destruct m as [|p|p]; simpl; try lia.
  destruct p; simpl; lia.
Qed.

Lemma iter_shr_1_nonneg n : forall mrs,
  (0 <= shr_m mrs)%Z -> (0 <= shr_m (SpecFloat.iter_pos shr_1 n mrs))%Z.
Proof.
  induction n as [n IH|n IH|]; simpl; intros mrs H; auto using shr_1_nonneg.
Qed.

Lemma shr_fexp_nonneg prec emax m e l :
  (0 <= m)%Z -> (0 <= shr_m (fst (shr_fexp prec emax m e l)))%Z.
Proof.
  intros H. unfold shr_fexp, shr.
  assert (H0 : (0 <= shr_m (shr_record_of_loc m l))%Z)
    by (destruct l as [|[| |]]; exact H).
  destruct (_ - e)%Z; simpl; trivial. now apply iter_shr_1_nonneg.
Qed.

Lemma binary_round_aux_notnan prec emax sx mx ex lx :
  (0 <= mx)%Z -> SFnotnan (binary_round_aux prec emax sx mx ex lx).
Proof.
  intros H. unfold binary_round_aux.
  pose proof (@shr_fexp_nonneg prec emax mx ex lx H) as H1.
  destruct (shr_fexp prec emax mx ex lx) as [mrs' e']. simpl in H1.
  set (r := round_nearest_even (shr_m mrs') (loc_of_shr_record mrs')).
  assert (Hr : (0 <= r)%Z).
  { unfold r, round_nearest_even.
    destruct (loc_of_shr_record mrs') as [|[| |]]; try lia.
    destruct (Z.even _); lia. }
  pose proof (@shr_fexp_nonneg prec emax r e' loc_Exact Hr) as H2.
  destruct (shr_fexp prec emax r e' loc_Exact) as [mrs'' e'']. simpl in H2.
  destruct (shr_m mrs''); simpl; trivial; [|lia].
  destruct (_ <=? _)%Z; exact I.
Qed.

Lemma binary_normalize_notnan prec emax m e szero :
  SFnotnan (binary_normalize prec emax m e szero).
Proof.
  unfold binary_normalize, binary_round.
  destruct m as [|p|p]; simpl; trivial;
    destruct (shl_align _ _ _); apply binary_round_aux_notnan; lia.
Qed.

Lemma SFsub_notnan x y : SFfin x -> SFfin y -> SFnotnan (SF64sub x y).
Proof.
  unfold SF64sub, SFsub.
  destruct x as [sx|sx| |sx mx ex], y as [sy|sy| |sy my ey]; simpl;
    try contradiction; intros _ _; trivial.
  - destruct sx, sy; exact I.
  - apply binary_normalize_notnan.
Qed.

Lemma SFsub_eq x y :
  SFfin x -> SFfin y -> SFeqb x y = true -> exists s, SF64sub x y = S754_zero s.
Proof.
  unfold SF64sub, SFsub, SFeqb, SFcompare.
  destruct x as [sx|sx| |sx mx ex], y as [sy|sy| |sy my ey]; simpl;
    try contradiction; intros _ _.
  - destruct sx, sy; eauto.
  - destruct sy; discriminate.
  - destruct sx; discriminate.
  - change (PosDef.Pos.compare_cont Eq) with Pos.compare.
    destruct sx, sy; try discriminate;
      destruct (Z.compare_spec ex ey); try discriminate; subst;
      destruct (Pos.compare_spec mx my); try discriminate; subst; intros _;
      rewrite Z.sub_diag; simpl; eauto.
Qed.

Lemma SFdiv_zero s y :
  SFnotnan y -> (forall s', y <> S754_zero s') ->
  exists s', SF64div (S754_zero s) y = S754_zero s'.
Proof.
  unfold SF64div, SFdiv. destruct y as [sy|sy| |sy my ey]; simpl; intros Hn Hz.
  - now destruct (Hz sy).
  - eauto.
  - contradiction.
  - eauto.
Qed.

Lemma one_minus_zero z s : Prim2SF z = S754_zero s -> 1 - z = 1.
Proof.
  intros H. apply Prim2SF_inj. rewrite FloatAxioms.sub_spec, H. reflexivity.
Qed.

Lemma eqb_zero z s : Prim2SF z = S754_zero s -> (z =? 0) = true.
Proof.
  intros H. rewrite FloatAxioms.eqb_spec, H. reflexivity.
Qed.

Lemma abs_leb_zero d s : Prim2SF d = S754_zero s -> (abs d <=? 0) = true.
Proof.
  intros H. rewrite FloatAxioms.leb_spec, FloatAxioms.abs_spec, H. reflexivity.
Qed.

Lemma leb_ltb_false (x y : float) : (x <=? y) = true -> (y <? x) = false.
Proof.
  rewrite FloatAxioms.ltb_spec, FloatAxioms.leb_spec. unfold SFltb, SFleb.
  rewrite (SFcompare_antisym (Prim2SF x) (Prim2SF y)).
  destruct (SFcompare _ _) as [[| |]|]; simpl; congruence.
Qed.

Lemma leb_antisym (x y : float) :
  (x <=? y) = true -> (y <=? x) = true -> (x =? y) = true.
Proof.
  rewrite FloatAxioms.eqb_spec, !FloatAxioms.leb_spec. unfold SFeqb, SFleb.
  rewrite (SFcompare_antisym (Prim2SF x) (Prim2SF y)).
  destruct (SFcompare _ _) as [[| |]|]; simpl; congruence.
Qed.

Lemma isfinite_not_nan (x : float) : isfinite x = true -> is_nan x = false.
Proof.
  unfold isfinite. intros H. apply andb_prop in H as [H _].
  now apply negb_true_iff in H.
Qed.

Lemma isfinite_not_inf (x : float) : isfinite x = true -> is_inf x = false.
Proof.
  unfold isfinite. intros H. apply andb_prop in H as [_ H].
  now apply negb_true_iff in H.
Qed.

Lemma py_min_lower (l : list float) : forall x,
  (forall y, In y (x :: l) -> is_nan y = false) ->
  forall y, In y (x :: l) -> (py_min x l <=? y) = true.
Proof.
  induction l as [|i l IH]; intros x Hn y Hy.
  - destruct Hy as [<-|[]]. apply leb_refl, Hn. now left.
  - change (py_min x (i :: l)) with (py_min (if i <? x then i else x) l).
    set (x' := if i <? x then i else x).
    assert (Hx : is_nan x = false) by (apply Hn; simpl; auto).
    assert (Hi : is_nan i = false) by (apply Hn; simpl; auto).
    assert (Hn' : forall z, In z (x' :: l) -> is_nan z = false).
    { intros z [<-|Hz]; [unfold x'; now destruct (i <? x) | apply Hn; simpl; auto]. }
    assert (Hx' : (x' <=? x) = true /\ (x' <=? i) = true).
    { unfold x'. destruct (i <? x) eqn:Hlt.
      - split; [now apply ltb_leb | now apply leb_refl].
      - split; [now apply leb_refl | now apply not_ltb_leb]. }
    pose proof (IH x' Hn' x' (or_introl eq_refl)) as Hm.
    destruct Hy as [<-|[<-|Hy]].
    + eapply leb_trans; [exact Hm | apply Hx'].
    + eapply leb_trans; [exact Hm | apply Hx'].
    + apply (IH x' Hn'). now right.
Qed.

Lemma normalize_get metric hib t v :
  NoDup (keys metric) -> In (t, Some v) metric -> isfinite v = true ->
  dict_get (_normalize metric hib) t
  = Some (match values (valid_of metric) with
          | [] => 0
          | v0 :: vs =>
              if isclose (py_min v0 vs) (py_max v0 vs) then 1
              else
                let score := (v - py_min v0 vs) / (py_max v0 vs - py_min v0 vs) in
                if negb hib then 1 - score else score
          end).
Proof.
  intros Hnd Hin Hf.
  assert (Hk : NoDup (keys (_normalize metric hib))) by now rewrite normalize_keys.
  apply (dict_get_NoDup _ _ _ Hk). unfold _normalize.
  assert (Hm : dict_mem (valid_of metric) t = true)
    by (rewrite (@valid_of_mem metric t (Some v) Hnd Hin); exact Hf).
  destruct (values (valid_of metric)) as [|v0 vs].
  - apply in_map_iff. exists (t, Some v). auto.
  - destruct (isclose _ _); apply in_map_iff; exists (t, Some v); split; trivial;
      rewrite Hm; reflexivity.
Qed.

Lemma lowest_score_zero metric t v v0 vs :
  In (t, Some v) metric -> isfinite v = true ->
  (forall t' v', In (t', Some v') metric -> isfinite v' = true -> (v' <? v) = false) ->
  values (valid_of metric) = v0 :: vs ->
  isclose (py_min v0 vs) (py_max v0 vs) = false ->
  exists s,
    Prim2SF ((v - py_min v0 vs) / (py_max v0 vs - py_min v0 vs)) = S754_zero s.
Proof.
  intros Hin Hf Hlow Hv Hc.
  assert (Hfin : forall y, In y (v0 :: vs) -> isfinite y = true).
  { intros y Hy. rewrite <- Hv in Hy. now apply valid_of_values in Hy as (_ & _ & H). }
  assert (Hvin : In v (v0 :: vs)).
  { rewrite <- Hv. unfold values. apply in_map_iff. exists (t, v).
    split; trivial. apply valid_of_In. auto. }
  pose proof (py_min_In vs v0) as Hmin. pose proof (py_max_In vs v0) as Hmax.
  set (m := py_min v0 vs) in *. set (M := py_max v0 vs) in *.
  assert (Hm1 : (m <=? v) = true).
  { apply py_min_lower; trivial. intros y Hy. now apply isfinite_not_nan, Hfin. }
  assert (Hm2 : (v <=? m) = true).
  { apply not_ltb_leb; try now apply isfinite_not_nan; auto.
    rewrite <- Hv in Hmin. apply valid_of_values in Hmin as (t' & Ht' & Hf').
    now apply (Hlow t'). }
  pose proof (@leb_antisym v m Hm2 Hm1) as He.
  rewrite FloatAxioms.eqb_spec in He.
  apply SFsub_eq in He as [s Hs];
    [|apply isfinite_spec; auto | apply isfinite_spec; auto].
  assert (Hscale : SFnotnan (Prim2SF (M - m)) /\ forall s', Prim2SF (M - m) <> S754_zero s').
  { split.
    - rewrite FloatAxioms.sub_spec. apply SFsub_notnan; apply isfinite_spec; auto.
    - intros s' Hz. apply abs_leb_zero in Hz. unfold isclose in Hc.
      destruct (m =? M); [discriminate|].
      rewrite (@isfinite_not_inf m (Hfin m Hmin)),
              (@isfinite_not_inf M (Hfin M Hmax)) in Hc. simpl in Hc.
      apply orb_false_elim in Hc as [_ Hc]. unfold abs_tol in Hc. congruence. }
  destruct Hscale as [Hn Hz].
  rewrite FloatAxioms.div_spec, (FloatAxioms.sub_spec v m), Hs.
  now apply SFdiv_zero.
Qed.

Lemma normalize_lowest_is_best metric t v :
  NoDup (keys metric) -> In (t, Some v) metric -> isfinite v = true ->
  (forall t' v', In (t', Some v') metric -> isfinite v' = true -> (v' <? v) = false) ->
  dict_get (_normalize metric false) t = Some 1.
Proof.
  intros Hnd Hin Hf Hlow.
  rewrite (@normalize_get metric _ t v Hnd Hin Hf).
  destruct (values (valid_of metric)) as [|v0 vs] eqn:Hv.
  - exfalso. assert (H : In v (values (valid_of metric))).
    { unfold values. apply in_map_iff. exists (t, v). split; trivial.
      apply valid_of_In. auto. }
    now rewrite Hv in H.
  - destruct (isclose _ _) eqn:Hc; trivial.
    destruct (@lowest_score_zero metric t v v0 vs Hin Hf Hlow Hv Hc) as [s Hs].
    simpl. f_equal. now apply one_minus_zero with s.
Qed.

(** X11: The ticker holding the lowest usable value, i.e. one that no usable value
    is strictly below, gets exactly 1.0 when lower is better, also when the
    range overflows; when higher is better it gets 1.0 if the minimum and the
    maximum of the usable values are close, and zero if they are not. *)
Theorem lowest_value_score metric t v :
  NoDup (keys metric) -> In (t, Some v) metric -> isfinite v = true ->
  (forall t' v', In (t', Some v') metric -> isfinite v' = true -> (v' <? v) = false) ->
  dict_get (_normalize metric false) t = Some 1 /\
  exists s, dict_get (_normalize metric true) t = Some s /\
            if usable_range_is_close metric then s = 1 else (s =? 0) = true.
Proof.
  intros Hnd Hin Hf Hlow. split; [now apply normalize_lowest_is_best with v|].
  rewrite (@normalize_get metric _ t v Hnd Hin Hf). unfold usable_range_is_close.
  destruct (values (valid_of metric)) as [|v0 vs] eqn:Hv.
  - eexists. split; reflexivity.
  - destruct (isclose _ _) eqn:Hc; [eauto|].
    destruct (@lowest_score_zero metric t v v0 vs Hin Hf Hlow Hv Hc) as [s Hs].
    simpl. eexists. split; [reflexivity|]. now apply eqb_zero with s.
Qed.

Lemma lowest_value_score_witness :
  dict_get (_normalize [("A", Some 0x1.1ccf385ebc8a0p+1023);
                        ("B", Some (-0x1.1ccf385ebc8a0p+1023)); ("C", None)] false) "B"
  = Some 1 /\
  exists s,
    dict_get (_normalize [("A", Some 0x1.1ccf385ebc8a0p+1023);
                          ("B", Some (-0x1.1ccf385ebc8a0p+1023)); ("C", None)] true) "B"
    = Some s /\ (s =? 0) = true.
Proof.
  refine (@lowest_value_score
            [("A", Some 0x1.1ccf385ebc8a0p+1023);
             ("B", Some (-0x1.1ccf385ebc8a0p+1023)); ("C", None)]
            "B" (-0x1.1ccf385ebc8a0p+1023) _ _ _ _).
  - repeat constructor; simpl; intuition discriminate.
  - simpl. auto.
  - vm_compute. reflexivity.
  - intros t' v' [H|[H|[H|[]]]] _; try discriminate; injection H as <- <-;
      vm_compute; reflexivity.
Defined.

(** X12: In a run, a ranked ticker whose volatility is finite and not above any
    other surviving ticker's finite volatility has risk score exactly 1.0. *)
Theorem least_volatile_scores_one alg yf tickers period vw mw rw top_n s r vol :
  analyze_universe alg yf tickers period vw mw rw top_n = Ok s ->
  In r (ranked s) ->
  volatility_21d (analysis r) = Some vol -> isfinite vol = true ->
  (forall t a v', In (t, a) (surviving alg yf period tickers) ->
                  volatility_21d a = Some v' -> isfinite v' = true ->
                  (v' <? vol) = false) ->
  risk_score r = 1.
Proof.
  intros Hrun Hin Hvol Hf Hlow.
  destruct (@run_ranked_entry _ _ _ _ _ _ _ _ _ Hrun _ Hin) as (t & a & Ha & ->).
  simpl in *. unfold normalized.
  destruct (@run_sound _ _ _ _ _ _ _ _ _ Hrun) as (_ & _ & Hnd & _).
  rewrite (@normalize_lowest_is_best
             (column volatility_21d (surviving alg yf period tickers)) t vol); trivial.
  - now rewrite column_keys.
  - unfold column. apply in_map_iff. exists (t, a). now rewrite Hvol.
  - intros t' v' Hin' Hf'. unfold column in Hin'.
    apply in_map_iff in Hin' as ([t0 a0] & Heq & Hin0). injection Heq as <- Hv0.
    now apply (Hlow t0 a0).
Qed.

Lemma least_volatile_scores_one_witness :
  exists s r,
    analyze_universe plain_sum sample_market ["AAA"; "BBB"] "6mo"
      0x1p-1 0x1p-2 0x1p-2 None = Ok s /\
    In r (ranked s) /\ r_ticker r = "BBB" /\ risk_score r = 1.
Proof.
  eexists. eexists. split; [vm_compute; reflexivity|].
  split; [left; reflexivity|]. split; [reflexivity|].
  refine (@least_volatile_scores_one plain_sum sample_market ["AAA"; "BBB"] "6mo"
            0x1p-1 0x1p-2 0x1p-2 None _ _ 0 _ _ _ _ _).
  - vm_compute. reflexivity.
  - left. reflexivity.
  - reflexivity.
  - vm_compute. reflexivity.
  - intros t a v' Hin. vm_compute in Hin.
    destruct Hin as [H|[H|[]]]; injection H as <- <-; intros Hv _;
      injection Hv as <-; vm_compute; reflexivity.
Defined.

(** ** A universe with a single surviving ticker *)

Lemma isclose_refl (x : float) : isfinite x = true -> isclose x x = true.
Proof.
  intros H. apply isfinite_not_nan in H. unfold is_nan in H.
  apply negb_false_iff in H. unfold isclose. now rewrite H.
Qed.

Lemma normalized_single field hib t a :
  normalized field hib [(t, a)] t = if usable (field a) then 1 else 0.
Proof.
  unfold normalized, column, _normalize. simpl.
  destruct (field a) as [x|]; simpl.
  - destruct (isfinite x) eqn:Hf; simpl.
    + unfold py_min, py_max. simpl. rewrite (isclose_refl _ Hf). simpl.
      unfold dict_mem. simpl. now rewrite String.eqb_refl.
    + now rewrite String.eqb_refl.
  - now rewrite String.eqb_refl.
Qed.

(** X13: When exactly one ticker survives extraction, the ranked output holds at
    most that ticker, and its momentum and risk scores are 1.0 whatever its
    momentum and volatility are, as long as they are finite, and 0.0 if not. *)
Theorem lone_survivor_scores alg yf tickers period vw mw rw top_n s t a r :
  analyze_universe alg yf tickers period vw mw rw top_n = Ok s ->
  surviving alg yf period tickers = [(t, a)] ->
  In r (ranked s) ->
  r_ticker r = t /\ analysis r = a /\
  momentum_score r = (if usable (momentum_21d a) then 1 else 0) /\
  risk_score r = (if usable (volatility_21d a) then 1 else 0).
Proof.
  intros Hrun Hs Hin.
  destruct (@run_ranked_entry _ _ _ _ _ _ _ _ _ Hrun _ Hin) as (t' & a' & Ha & ->).
  rewrite Hs in *. destruct Ha as [Ha|[]]. injection Ha as <- <-. simpl.
  now rewrite !normalized_single.
Qed.

Lemma lone_survivor_scores_witness :
  exists s r,
    analyze_universe plain_sum sample_market ["CCC"; "AAA"] "6mo"
      0x1p-1 0x1p-2 0x1p-2 (Some 20%Z) = Ok s /\
    In r (ranked s) /\ momentum_score r = 1 /\ risk_score r = 1.
Proof.
  eexists. eexists. split; [vm_compute; reflexivity|].
  split; [left; reflexivity|].
  destruct (@lone_survivor_scores plain_sum sample_market ["CCC"; "AAA"]
              "6mo" 0x1p-1 0x1p-2 0x1p-2 (Some 20%Z) _ "AAA" _ _
              ltac:(vm_compute; reflexivity) ltac:(vm_compute; reflexivity)
              (or_introl eq_refl)) as (_ & _ & Hm & Hr).
  split; [exact Hm | exact Hr].
Defined.

(** * The ticker list of the command line *)

Lemma ascii_compare_trans a b c :
  Ascii.compare a b = Lt -> Ascii.compare b c = Lt -> Ascii.compare a c = Lt.
Proof.
  unfold Ascii.compare. rewrite !N.compare_lt_iff. apply N.lt_trans.
Qed.

Lemma string_lt_trans a : forall b c, string_lt a b -> string_lt b c -> string_lt a c.
Proof.
  unfold string_lt.
  induction a as [|x a IH]; intros [|y b] [|z c]; simpl; try discriminate; trivial.
  destruct (Ascii.compare x y) eqn:Hxy; try discriminate;
    destruct (Ascii.compare y z) eqn:Hyz; try discriminate; intros H1 H2.
  - apply Ascii.compare_eq_iff in Hxy, Hyz. subst.
    assert (Hzz : Ascii.compare z z = Eq) by (unfold Ascii.compare; apply N.compare_refl).
    rewrite Hzz. eauto.
  - apply Ascii.compare_eq_iff in Hxy. subst. now rewrite Hyz.
  - apply Ascii.compare_eq_iff in Hyz. subst. now rewrite Hxy.
  - now rewrite (ascii_compare_trans _ _ _ Hxy Hyz).
Qed.

Lemma string_lt_irrefl a : ~ string_lt a a.
Proof.
  unfold string_lt. intros H. pose proof (String.compare_antisym a a) as E.
  rewrite H in E. discriminate.
Qed.

Lemma insert_sorted_In x l t : In t (insert_sorted x l) <-> t = x \/ In t l.
Proof.
  induction l as [|y l IH]; simpl.
  - intuition.
  - destruct (String.compare x y) eqn:Hc; simpl.
    + apply String.compare_eq_iff in Hc. subst. intuition.
    + intuition.
    + rewrite IH. intuition.
Qed.

Lemma sorted_set_In l t : In t (sorted_set l) <-> In t l.
Proof.
  induction l as [|x l IH]; simpl; [tauto|].
  rewrite insert_sorted_In, IH. intuition.
Qed.

Lemma insert_sorted_sorted x l :
  StronglySorted string_lt l -> StronglySorted string_lt (insert_sorted x l).
Proof.
  induction 1 as [|y l Hs IH Hy]; simpl.
  - repeat constructor.
  - destruct (String.compare x y) eqn:Hc.
    + now constructor.
    + constructor; [now constructor|]. constructor; trivial.
      eapply Forall_impl; [|exact Hy]. intros z Hz. now apply string_lt_trans with y.
    + constructor; trivial. apply Forall_forall. intros z Hz.
      apply insert_sorted_In in Hz as [->|Hz].
      * unfold string_lt. rewrite String.compare_antisym, Hc. reflexivity.
      * rewrite Forall_forall in Hy. auto.
Qed.

Lemma sorted_set_sorted l : StronglySorted string_lt (sorted_set l).
Proof.
  induction l as [|x l IH]; simpl; [constructor | now apply insert_sorted_sorted].
Qed.

Lemma strictly_sorted_NoDup l : StronglySorted string_lt l -> NoDup l.
Proof.
  induction 1 as [|y l Hs IH Hy]; constructor; trivial.
  intros Hin. rewrite Forall_forall in Hy. exact (@string_lt_irrefl y (Hy _ Hin)).
Qed.

Lemma parse_tickers_load_error upper values m :
  _parse_tickers upper values (Some (inl m)) = Unexpected m.
Proof. reflexivity. Qed.

Lemma parse_tickers_Ok upper values loaded :
  (forall m, loaded <> Some (inl m)) ->
  _parse_tickers upper values loaded
  = Ok (sorted_set (match supplied upper values loaded with
                    | [] => DEFAULT_UNIVERSE
                    | _ :: _ => supplied upper values loaded
                    end)).
Proof.
  intros Hload.
  assert (T : forall given,
             _parse_tickers upper values (Some (inr given))
             = Ok (sorted_set (match supplied upper values (Some (inr given)) with
                               | [] => DEFAULT_UNIVERSE
                               | _ :: _ => supplied upper values (Some (inr given))
                               end))).
  { intros given. unfold _parse_tickers, supplied. simpl.
    assert (E : match values with
                | Some ((_ :: _) as symbols) => (given ++ map upper symbols)%list
                | _ => given
                end
                = (given ++ match values with
                            | Some symbols => map upper symbols
                            | None => []
                            end)%list).
    { destruct values as [[|v vs]|]; simpl; now rewrite ?app_nil_r. }
    rewrite E. clear E.
    set (l := match (given ++ _)%list with [] => DEFAULT_UNIVERSE | _ :: _ => _ end).
    assert (Hl : l <> []).
    { unfold l. destruct (given ++ _)%list; discriminate. }
    destruct (sorted_set l) as [|u us] eqn:Hu; trivial.
    destruct l as [|x l']; [congruence|].
    assert (Hx : In x (sorted_set (x :: l'))) by (apply sorted_set_In; now left).
    now rewrite Hu in Hx. }
  destruct loaded as [[m|f]|].
  - now destruct (Hload m).
  - apply T.
  - exact (T []).
Qed.

Lemma parse_tickers_loaded upper values loaded unique :
  _parse_tickers upper values loaded = Ok unique -> forall m, loaded <> Some (inl m).
Proof. intros H m ->. discriminate. Qed.

(** X14: Of [_parse_tickers] only the exception of loading the universe file
    escapes: if the load raises, that exception is raised; in every other
    case, whatever is given on the command line and in the file, a non-empty
    ticker list is returned, so that the function's own [ValueError] for no
    tickers is never raised. *)
Theorem parse_tickers_raises_only_load_errors upper values loaded :
  match loaded with
  | Some (inl m) => _parse_tickers upper values loaded = Unexpected m
  | _ => exists unique, _parse_tickers upper values loaded = Ok unique /\ unique <> []
  end.
Proof.
  assert (H : (forall m, loaded <> Some (inl m)) ->
              exists unique,
                _parse_tickers upper values loaded = Ok unique /\ unique <> []).
  { intros Hload. rewrite parse_tickers_Ok by exact Hload.
    eexists. split; [reflexivity|].
    destruct (supplied upper values loaded) as [|x l] eqn:Hs; intros He.
    - discriminate.
    - assert (Hx : In x (sorted_set (x :: l))) by (apply sorted_set_In; now left).
      now rewrite He in Hx. }
  destruct loaded as [[m|f]|]; [reflexivity | |]; apply H; discriminate.
Qed.

(** X15: The returned list is strictly ascending, hence free of duplicates, and
    holds exactly the supplied tickers (those of the universe file and the
    upper-cased [--tickers]), or exactly the default universe when none is
    supplied. *)
Theorem parse_tickers_sorted_unique upper values loaded unique :
  _parse_tickers upper values loaded = Ok unique ->
  StronglySorted string_lt unique /\ NoDup unique /\
  forall t, In t unique <->
            match supplied upper values loaded with
            | [] => In t DEFAULT_UNIVERSE
            | _ :: _ => In t (supplied upper values loaded)
            end.
Proof.
  intros H. rewrite parse_tickers_Ok in H by exact (@parse_tickers_loaded _ _ _ _ H).
  injection H as <-.
  split; [apply sorted_set_sorted|]. split.
  - apply strictly_sorted_NoDup, sorted_set_sorted.
  - intros t. rewrite sorted_set_In. destruct (supplied upper values loaded); tauto.
Qed.

Lemma parse_tickers_sorted_unique_witness :
  _parse_tickers upper_ascii (Some ["msft"; "Aapl"; "MSFT"])
    (Some (inr ["NVDA"; "AAPL"]))
  = Ok ["AAPL"; "MSFT"; "NVDA"] /\
  NoDup ["AAPL"; "MSFT"; "NVDA"].
Proof.
  split; [vm_compute; reflexivity|].
  refine (proj1 (proj2 (@parse_tickers_sorted_unique upper_ascii
                          (Some ["msft"; "Aapl"; "MSFT"])
                          (Some (inr ["NVDA"; "AAPL"])) _ _))).
  vm_compute. reflexivity.
Defined.

Lemma StronglySorted_filter {A : Type} (R : A -> A -> Prop) (p : A -> bool) (l : list A) :
  StronglySorted R l -> StronglySorted R (filter p l).
Proof.
  induction 1 as [|x l Hs IH Hx]; simpl; [constructor|].
  destruct (p x); trivial. constructor; trivial.
  rewrite Forall_forall in *. intros y Hy. apply filter_In in Hy as [Hy _]. auto.
Qed.

(** X16: Fed with the list that [_parse_tickers] returns, as [run_cli] does, a
    normal run lists the skipped tickers, and analyses the others, in
    ascending order of the ticker symbols. *)
Theorem cli_run_is_alphabetical
    upper values loaded tickers alg yf period vw mw rw top_n s :
  _parse_tickers upper values loaded = Ok tickers ->
  analyze_universe alg yf tickers period vw mw rw top_n = Ok s ->
  StronglySorted string_lt (failed_tickers s) /\
  StronglySorted string_lt (keys (surviving alg yf period tickers)).
Proof.
  intros Hp Hrun.
  rewrite parse_tickers_Ok in Hp by exact (@parse_tickers_loaded _ _ _ _ Hp).
  injection Hp as Hp.
  assert (Hs : StronglySorted string_lt tickers)
    by (rewrite <- Hp; apply sorted_set_sorted).
  pose proof (@run_fetch _ _ _ _ _ _ _ _ _ Hrun) as Hf.
  apply fetch_loop_order in Hf; [|now apply strictly_sorted_NoDup | simpl; tauto].
  simpl in Hf. destruct Hf as [HA HF]. unfold failed_tickers. rewrite HA, HF.
  split; now apply StronglySorted_filter.
Qed.

Lemma cli_run_is_alphabetical_witness :
  exists s,
    analyze_universe plain_sum sample_market ["AAA"; "BBB"; "CCC"; "EEE"] "6mo"
      0x1p-1 0x1p-2 0x1p-2 (Some 20%Z) = Ok s /\
    failed_tickers s = ["CCC"; "EEE"] /\
    StronglySorted string_lt (failed_tickers s).
Proof.
  eexists. split; [vm_compute; reflexivity|]. split; [reflexivity|].
  refine (proj1 (@cli_run_is_alphabetical upper_ascii
                   (Some ["eee"; "bbb"; "ccc"; "aaa"; "bbb"]) None
                   ["AAA"; "BBB"; "CCC"; "EEE"]
                   plain_sum sample_market "6mo" 0x1p-1 0x1p-2 0x1p-2 (Some 20%Z) _ _ _)).
  - vm_compute. reflexivity.
  - vm_compute. reflexivity.
Defined.

(** * Damaged price data *)

(** X17: A ticker whose close 21 sessions before the last one is zero makes the
    whole run fail, with the division error as the cause, when no earlier
    ticker fails unexpectedly: the error is not a soft failure. *)
Theorem zero_base_close_is_fatal alg yf period vw mw rw top_n pre t post h :
  (forall u, In u pre -> forall m, _fetch_analysis alg yf u period <> Unexpected m) ->
  history (yf t period) = inr h ->
  (21 < len (Close h))%nat ->
  (nth_from_end 22 (Close h) 0 =? 0) = true ->
  analyze_universe alg yf (pre ++ t :: post) period vw mw rw top_n
  = AnalysisErr ("Failed to analyze " ++ t ++ ": float division by zero").
Proof.
  intros Hpre Hh Hlen Hz. unfold analyze_universe.
  rewrite (@fetch_loop_first_unexpected alg yf period pre t post
             "float division by zero" Hpre); trivial.
  unfold _fetch_analysis. rewrite Hh. simpl.
  destruct (Close h) as [|c cs] eqn:Hc; [simpl in Hlen; lia|].
  unfold _compute_momentum, LOOKBACK_DAYS.
  destruct (Nat.leb_spec (len (c :: cs)) 21) as [Hle|_]; [lia|].
  unfold py_div. change (21 + 1)%nat with 22%nat. now rewrite Hz.
Qed.

Lemma zero_base_close_is_fatal_witness :
  analyze_universe plain_sum damaged_market (["GAP"] ++ "HALT" :: ["ZZZ"]) "6mo"
    0x1p-1 0x1p-2 0x1p-2 None
  = AnalysisErr "Failed to analyze HALT: float division by zero".
Proof.
  apply (@zero_base_close_is_fatal plain_sum damaged_market "6mo"
           0x1p-1 0x1p-2 0x1p-2 None ["GAP"] "HALT" ["ZZZ"]
           {| Close := 0 :: repeat 100 21;
              Close_pct_change := infinity :: repeat 0 20 |}).
  - intros u [<-|[]] m. vm_compute. discriminate.
  - reflexivity.
  - simpl. lia.
  - vm_compute. reflexivity.
Defined.

(** X18: A metric that is missing, NaN or infinite for a ranked ticker gives it the
    normalized score 0.0; so a NaN momentum or volatility, as a NaN close
    produces, yields the momentum, resp. risk, score 0.0. *)
Theorem unusable_metric_scores_zero alg yf tickers period vw mw rw top_n s r :
  analyze_universe alg yf tickers period vw mw rw top_n = Ok s ->
  In r (ranked s) ->
  (usable (momentum_21d (analysis r)) = false -> momentum_score r = 0) /\
  (usable (volatility_21d (analysis r)) = false -> risk_score r = 0) /\
  (forall field higher_is_better,
      usable (field (analysis r)) = false ->
      normalized field higher_is_better (surviving alg yf period tickers) (r_ticker r) = 0).
Proof.
  intros Hrun Hin.
  destruct (@run_ranked_entry _ _ _ _ _ _ _ _ _ Hrun _ Hin) as (t & a & Ha & ->).
  simpl.
  destruct (@run_sound _ _ _ _ _ _ _ _ _ Hrun) as (_ & _ & Hnd & _).
  assert (H : forall field hib, usable (field a) = false ->
                normalized field hib (surviving alg yf period tickers) t = 0).
  { intros field hib Hu. unfold normalized.
    rewrite (@normalize_unusable_zero
               (column field (surviving alg yf period tickers)) hib t (field a)); trivial.
    - now rewrite column_keys.
    - unfold column. apply in_map_iff. exists (t, a). auto. }
  auto.
Qed.

Lemma unusable_metric_scores_zero_witness :
  exists s r,
    analyze_universe plain_sum damaged_market ["GAP"] "6mo"
      0x1p-1 0x1p-2 0x1p-2 None = Ok s /\
    In r (ranked s) /\ momentum_score r = 0 /\ risk_score r = 0.
Proof.
  eexists. eexists. split; [vm_compute; reflexivity|].
  split; [left; reflexivity|].
  destruct (@unusable_metric_scores_zero plain_sum damaged_market ["GAP"] "6mo"
              0x1p-1 0x1p-2 0x1p-2 None _ _
              ltac:(vm_compute; reflexivity) (or_introl eq_refl)) as (Hm & Hr & _).
  split; [apply Hm | apply Hr]; vm_compute; reflexivity.
Defined.

(** * Older history *)

Lemma last_n_app_ge {A : Type} (n : nat) (pre w : list A) :
  (n <= len w)%nat -> last_n n (pre ++ w) = last_n n w.
Proof.
  intros H. unfold last_n. rewrite length_app, skipn_app.
  rewrite skipn_all2 by lia. simpl. f_equal. lia.
Qed.

Lemma nth_from_end_app {A : Type} (n : nat) (pre w : list A) (d : A) :
  (1 <= n <= len w)%nat -> nth_from_end n (pre ++ w) d = nth_from_end n w d.
Proof.
  intros H. unfold nth_from_end. rewrite length_app, app_nth2 by lia.
  f_equal. lia.
Qed.

(** X19: Only the recent past counts: prices before the last 22 closes do not
    change the momentum, and returns before the last 21 do not change the
    volatility, result or error. *)
Theorem older_history_is_ignored alg (pre w : list float) :
  ((22 <= len w)%nat -> _compute_momentum (pre ++ w) = _compute_momentum w) /\
  ((21 <= len w)%nat ->
   _compute_volatility alg (pre ++ w) = _compute_volatility alg w).
Proof.
  split; intros H.
  - unfold _compute_momentum, LOOKBACK_DAYS.
    destruct (Nat.leb_spec (len (pre ++ w)) 21) as [Hle|_];
      [rewrite length_app in Hle; lia|].
    destruct (Nat.leb_spec (len w) 21) as [Hle|_]; [lia|].
    rewrite !nth_from_end_app by (simpl; lia). reflexivity.
  - unfold _compute_volatility, LOOKBACK_DAYS.
    destruct (Nat.ltb_spec (len (pre ++ w)) 21) as [Hlt|_];
      [rewrite length_app in Hlt; lia|].
    destruct (Nat.ltb_spec (len w) 21) as [Hlt|_]; [lia|].
    now rewrite last_n_app_ge.
Qed.

Lemma older_history_is_ignored_witness :
  _compute_momentum ([1; 2; 3] ++ repeat 100 21 ++ [110])
  = _compute_momentum (repeat 100 21 ++ [110]).
Proof.
  apply (proj1 (@older_history_is_ignored plain_sum [1; 2; 3] (repeat 100 21 ++ [110]))).
  simpl. lia.
Defined.

(** * A run without survivors *)

Lemma dict_set_new {V : Type} (d : dict V) k v :
  ~ In k (keys d) -> dict_set d k v = (d ++ [(k, v)])%list.
Proof.
  induction d as [|[k' v'] d IH]; simpl; intros Hn; trivial.
  destruct (String.eqb_spec k k') as [->|Hne]; [tauto|].
  f_equal. apply IH. tauto.
Qed.

Lemma first_occurrences_In l t : In t (first_occurrences l) -> In t l.
Proof.
  induction l as [|x l IH]; simpl; trivial.
  intros [H|H]; auto. apply filter_In in H as [H _]. auto.
Qed.

Lemma fetch_loop_all_soft alg yf period l : forall A F,
  NoDup l -> (forall t, In t l -> ~ In t (keys F)) ->
  (forall t, In t l -> exists m, _fetch_analysis alg yf t period = AnalysisErr m) ->
  fetch_loop alg yf period l A F
  = Ok (A, (F ++ map (fun t => (t, reason alg yf period t)) l)%list).
Proof.
  induction l as [|t l IH]; simpl; intros A F Hnd Hnew Hsoft.
  - now rewrite app_nil_r.
  - inversion Hnd as [|? ? Hnotin Hnd']; subst.
    unfold reason at 1. destruct (Hsoft t (or_introl eq_refl)) as [m ->].
    rewrite IH; trivial.
    + rewrite dict_set_new by (apply Hnew; now left). now rewrite <- app_assoc.
    + intros u Hu. rewrite keys_set. intros [->|H]; [contradiction|].
      apply (Hnew u); auto.
    + intros u Hu. apply Hsoft. now right.
Qed.

(** C2: [analyze_universe] raises [AnalysisError] in two cases only, and in
    each of them: an unexpected exception of some ticker's extraction, wrapped
    with that ticker and the cause, all tickers before it having been
    processed; or no ticker yielding an analysis, every input ticker having
    failed softly, the message then listing each distinct ticker once, in
    input order, as [TICKER (reason)], separated by commas.  Otherwise it
    returns, the soft failures being recorded in the failure map.  No other
    exception escapes. *)
Theorem fatal_errors
    alg yf tickers period value_weight momentum_weight risk_weight top_n :
  match analyze_universe alg yf tickers period
          value_weight momentum_weight risk_weight top_n with
  | Ok s =>
      (forall t, In t tickers ->
                 forall exc, _fetch_analysis alg yf t period <> Unexpected exc) /\
      (exists t a, In t tickers /\ _fetch_analysis alg yf t period = Ok a) /\
      (forall t m, dict_get (failures s) t = Some m <->
                   In t tickers /\ _fetch_analysis alg yf t period = AnalysisErr m)
  | AnalysisErr msg =>
      (exists pre t post exc,
          tickers = (pre ++ t :: post)%list /\
          (forall u, In u pre ->
                     forall m, _fetch_analysis alg yf u period <> Unexpected m) /\
          _fetch_analysis alg yf t period = Unexpected exc /\
          msg = "Failed to analyze " ++ t ++ ": " ++ exc) \/
      ((forall t, In t tickers ->
                  exists m, _fetch_analysis alg yf t period = AnalysisErr m) /\
       msg = "Unable to analyze any tickers. Reasons: " ++
             String.concat ", "
               (map (fun t => t ++ " (" ++ reason alg yf period t ++ ")")
                    (first_occurrences tickers)))
  | Unexpected _ => False
  end.
Proof.
  pose proof (analyze_universe_run alg yf tickers period
                value_weight momentum_weight risk_weight top_n) as R.
  destruct (fetch_loop alg yf period tickers [] []) as [[analyses fl]|msg|msg] eqn:Hf;
    [|rewrite R|contradiction].
  - pose proof (fetch_loop_failures _ _ _ _ Hf) as HF.
    pose proof Hf as Hk.
    apply fetch_loop_Ok in Hk as (_ & HA & _ & HU); [|apply fetch_sound_nil].
    destruct analyses as [|[t0 a0] analyses]; rewrite R.
    + right.
      assert (Hsoft : forall t, In t tickers ->
                 exists m, _fetch_analysis alg yf t period = AnalysisErr m).
      { intros t Hin. destruct (_fetch_analysis alg yf t period) as [a|m|m] eqn:Ht.
        * exfalso. apply (proj2 (HA t)). right. eauto.
        * eauto.
        * now apply HU in Ht. }
      split; [exact Hsoft|].
      rewrite fetch_loop_first_occurrences, fetch_loop_all_soft in Hf;
        [| apply first_occurrences_NoDup | simpl; tauto
         | intros t Ht; now apply Hsoft, first_occurrences_In].
      injection Hf as <-. simpl. unfold joined. now rewrite map_map.
    + simpl. split; [exact HU|]. split; [|exact HF].
      destruct (proj1 (HA t0)) as [[]|(Hin & a & Ha)]; [simpl; auto|]. eauto.
  - left. now apply fetch_loop_AnalysisErr in Hf.
Qed.

(** X20: When every input ticker fails softly (also when there is no input ticker
    at all), the run raises [AnalysisError] whose message lists each distinct
    ticker once, in input order, with its reason in parentheses, separated by
    commas. *)
Theorem no_survivor_message alg yf tickers period vw mw rw top_n :
  (forall t, In t tickers -> exists m, _fetch_analysis alg yf t period = AnalysisErr m) ->
  analyze_universe alg yf tickers period vw mw rw top_n
  = AnalysisErr
      ("Unable to analyze any tickers. Reasons: " ++
       String.concat ", "
         (map (fun t => t ++ " (" ++ reason alg yf period t ++ ")")
              (first_occurrences tickers))).
Proof.
  intros Hsoft. unfold analyze_universe.
  rewrite fetch_loop_first_occurrences, fetch_loop_all_soft.
  - simpl. unfold joined. now rewrite map_map.
  - apply first_occurrences_NoDup.
  - simpl. tauto.
  - intros t Ht. now apply Hsoft, first_occurrences_In.
Qed.

Lemma no_survivor_message_witness :
  analyze_universe plain_sum sample_market ["CCC"; "EEE"; "CCC"] "6mo"
    0x1p-1 0x1p-2 0x1p-2 None
  = AnalysisErr
      "Unable to analyze any tickers. Reasons: CCC (No price history available), EEE (No price history available)".
Proof.
  rewrite (@no_survivor_message plain_sum sample_market ["CCC"; "EEE"; "CCC"] "6mo").
  - vm_compute. reflexivity.
  - intros t [<-|[<-|[<-|[]]]]; eexists; vm_compute; reflexivity.
Defined.
